(** * cycler: composable cycles of key/value records

    A shallow embedding of [cycler.py] (version 0.10.0) and the verification
    of its composition algebra: key-set validation, pairwise and outer
    composition, the in-place variants, transposition ([by_key]),
    simplification, concatenation, integer repetition, slicing and key
    renaming.

    Python objects are modelled by value.  A record (a [dict] from property
    name to value) is a finite map; [dict] equality does not look at
    insertion order, and neither does map equality.  Exceptions are the
    [Raise] branch of an error monad; a method that mutates its receiver
    is a function to the receiver's new state, and when it raises the
    state it may have left half-updated is not tracked (no statement
    below looks at a receiver after an exception).  The order in which
    Python walks a [set] is not fixed by the language: it is a parameter
    of the development (class [IterOrder]), and every statement holds for
    every such order; a statement that compares what independent walks
    build takes one order per walk.  Integers are Python 3's unbounded
    [int]; the range of an index and the longest list are those of a
    64-bit CPython, and appear where the interpreter checks them
    (repeating a list). *)

From stdpp Require Import gmap strings list fin_maps.

#[local] Set Warnings "-clear-no-such-hyp".

Open Scope Z_scope.
Open Scope nat_scope.

(** ** Values, records and exceptions *)

(** Property values are opaque to the library: it stores them, copies them
    and compares them.  Integers and strings cover the documented uses. *)
Inductive value :=
| VInt (z : Z)
| VStr (s : string).

#[global] Instance value_eq_dec : EqDecision value.
Proof. solve_decision. Defined.

#[global] Instance value_inhabited : Inhabited value := populate (VInt 0).

(** One record: what a single iteration step yields. *)
Abbreviation record := (gmap string value).

(** The exceptions the module lets escape, one constructor per [raise]
    site (or per failing built-in), with the data its message is
    formatted from. *)
Inductive exn :=
| StopIteration
    (* [next] on an exhausted iterator *)
| OverlappingKeys
    (* ValueError: Can not compose overlapping cycles *)
| UnequalLength (l r : nat)
    (* ValueError: Can only add equal length cycles, not l and r *)
| KeyAlreadyExists (old new : string)
    (* ValueError: Can't replace old with new, new is already a key *)
| KeyNotFound (old new : string)
    (* KeyError: Can't replace old with new, old is not a key *)
| KeysDoNotMatch (both just_one : gset string)
    (* ValueError: Keys do not match: Intersection: both, Disjoint: just_one *)
| MultiProperty
    (* ValueError: Can not create Cycler from a multi-property Cycler *)
| OnlySlices
    (* ValueError: Can only use slices with Cycler.__getitem__ *)
| KeyError (k : string)
    (* d[k] on a dict without k; pop from an empty set *)
| EmptyReduce
    (* TypeError: reduce() of empty sequence with no initial value *)
| ZeroStep
    (* ValueError: slice step cannot be zero *)
| NoArguments
    (* TypeError: Must have at least a positional OR keyword arguments *)
| OverflowError
    (* cannot fit 'int' into an index-sized integer *)
| MemoryError.
    (* a list longer than the interpreter allocates *)

#[global] Instance exn_eq_dec : EqDecision exn.
Proof. solve_decision. Defined.

Inductive result (A : Type) :=
| Ok (a : A)
| Raise (e : exn).

Arguments Ok {A} a.
Arguments Raise {A} e.

#[global] Instance result_ret : MRet result := @Ok.

#[global] Instance result_bind : MBind result :=
  λ A B f m, match m with Ok a => f a | Raise e => Raise e end.

#[global] Instance result_fmap : FMap result :=
  λ A B f m, match m with Ok a => Ok (f a) | Raise e => Raise e end.

Definition is_Raise {A} (m : result A) : Prop :=
  match m with Ok _ => False | Raise _ => True end.

(** A [for] loop threading an accumulator, left to right, stopping at the
    first exception. *)
Fixpoint foldlM {A B} (f : A → B → result A) (a : A) (l : list B) : result A :=
  match l with
  | [] => Ok a
  | b :: l => a' ← f a b; foldlM f a' l
  end.

(** [reduce(f, gen)] without initial value over a generator whose elements
    are produced on demand (and may raise when produced). *)
Definition reduce {A} (f : A → A → result A) (gen : list (result A)) : result A :=
  match gen with
  | [] => Raise EmptyReduce
  | x :: xs => a ← x; foldlM (λ acc y, b ← y; f acc b) a xs
  end.

(** [next(iter(it))] *)
Definition next {A} (it : list A) : result A :=
  match it with
  | x :: _ => Ok x
  | [] => Raise StopIteration
  end.

(** [d[k]] *)
Definition getitem (d : record) (k : string) : result value :=
  match d !! k with
  | Some v => Ok v
  | None => Raise (KeyError k)
  end.

(** [out.update(a)]: the entries of [a] win. *)
Definition update (out a : record) : record := a ∪ out.

(** [itertools.product(l, r)]: the right operand cycles fastest. *)
Definition product {A B} (l : list A) (r : list B) : list (A * B) :=
  l ≫= λ a, (λ b, (a, b)) <$> r.

(** Walking order of a Python [set] (and of a [dict] built from one):
    some enumeration of its items.  An instance fixes the order of the
    walks of one run; CPython's order also depends on how a set object
    was built, so what is to hold for sets walked independently is
    stated over one instance per walk. *)
Class IterOrder := {
  set_order : gset string → list string;
  set_order_perm : ∀ s, set_order s ≡ₚ elements s
}.

(** One such order, to run the definitions with. *)
#[global] Instance elements_order : IterOrder :=
  {| set_order := elements; set_order_perm := λ s, reflexivity (elements s) |}.

(** Another one, to tell what depends on the order. *)
#[global] Instance reverse_order : IterOrder | 10 :=
  {| set_order := λ s, reverse (elements s);
     set_order_perm := λ s, reverse_Permutation (elements s) |}.

(** ** Python lists: repetition and slicing *)

(** [v] repeated [n] times in a row (no item for [n ≤ 0]): the list
    that [v * n] evaluates to, when it evaluates *)
Definition list_mul {A} (v : list A) (n : Z) : list A :=
  mjoin (replicate (Z.to_nat n) v).

(** [sys.maxsize], the largest index, of a 64-bit CPython, and the
    longest list it allocates (eight bytes an item) *)
Definition PY_SSIZE_T_MAX : Z := 2 ^ 63 - 1.
Definition MAX_LIST_SIZE : Z := PY_SSIZE_T_MAX / 8.

(** [v * n] for a list [v] and an [int] [n].  The count is first turned
    into an index, which fails outside [-2^63, 2^63 - 1]; a result
    longer than the interpreter allocates is refused.  How much memory
    the machine really has is not modelled. *)
Definition list_repeat {A} (v : list A) (n : Z) : result (list A) :=
  if decide (n < - PY_SSIZE_T_MAX - 1 ∨ PY_SSIZE_T_MAX < n)%Z then Raise OverflowError
  else if decide (0 < n ∧ MAX_LIST_SIZE < Z.of_nat (length v) * n)%Z then Raise MemoryError
  else Ok (list_mul v n).

Record slice := Slice {
  start : option Z;
  stop : option Z;
  step : option Z
}.

(** [range(start, stop, step)] for [step ≠ 0] *)
Definition range (start stop step : Z) : list Z :=
  let n :=
    if decide (0 < step)%Z then
      if decide (start < stop)%Z then ((stop - start - 1) / step + 1)%Z else 0%Z
    else
      if decide (stop < start)%Z then ((start - stop - 1) / (- step) + 1)%Z else 0%Z in
  (λ i, (start + Z.of_nat i * step)%Z) <$> seq 0 (Z.to_nat n).

(** The positions [s.indices(length)] selects, as the [range] over them *)
Definition slice_indices (s : slice) (length : Z) : result (list Z) :=
  let step_ := default 1%Z (step s) in
  if decide (step_ = 0%Z) then Raise ZeroStep else
  let lower := if decide (step_ < 0)%Z then (-1)%Z else 0%Z in
  let upper := if decide (step_ < 0)%Z then (length - 1)%Z else length in
  let clamp i :=
    if decide (i < 0)%Z then Z.max (i + length) lower else Z.min i upper in
  let start_ :=
    match start s with
    | None => if decide (step_ < 0)%Z then upper else lower
    | Some i => clamp i
    end in
  let stop_ :=
    match stop s with
    | None => if decide (step_ < 0)%Z then lower else upper
    | Some i => clamp i
    end in
  Ok (range start_ stop_ step_).

(** [v[key]] for a list [v] and a slice [key] *)
Definition list_getslice {A} (key : slice) (v : list A) : result (list A) :=
  idx ← slice_indices key (Z.of_nat (length v));
  Ok (omap (λ i : Z, v !! Z.to_nat i) (idx : list Z)).

(** ** The Cycler object *)

(** [zip] or [itertools.product], stored in [_op] *)
Inductive Op := Zip | Product.

#[global] Instance Op_eq_dec : EqDecision Op.
Proof. solve_decision. Defined.

(** The object has four fields, [_left], [_right], [_op] and [_keys].
    The module stores three configurations of them:
    - [Base]: [_left] is a list of records, [_right] and [_op] are [None]
      (built by [_from_iter], copied by [__init__]);
    - [Copy]: [_left] is a Cycler, [_right] and [_op] are [None]
      (built by [Cycler(c)], the one-argument form of [cycler]);
    - [Comp]: [_left] and [_right] are Cyclers and [_op] is [zip] or
      [product] (built by [+], [*], [+=], [*=]).
    The first component is [_keys] in each. *)
Inductive Cycler :=
| Base (_keys : gset string) (_left : list record)
| Copy (_keys : gset string) (_left : Cycler)
| Comp (_keys : gset string) (_left _right : Cycler) (_op : Op).

#[global] Instance Cycler_eq_dec : EqDecision Cycler.
Proof. solve_decision. Defined.

(** [Cycler.keys]: a fresh [set] holding [_keys] *)
Definition keys (self : Cycler) : gset string :=
  match self with
  | Base ks _ | Copy ks _ | Comp ks _ _ _ => ks
  end.

(** [_process_keys(left, right)], on the record sequences of its arguments
    ([None] for [None]). *)
Definition _process_keys (left right : option (list record)) : result (gset string) :=
  l_peek ← match left with Some it => next it | None => Ok ∅ end;
  r_peek ← match right with Some it => next it | None => Ok ∅ end;
  let l_key : gset string := dom (l_peek : record) in
  let r_key : gset string := dom (r_peek : record) in
  if decide (l_key ∩ r_key ≠ ∅) then Raise OverlappingKeys
  else Ok (l_key ∪ r_key).

Definition apply_op {A B} (op : Op) : list A → list B → list (A * B) :=
  match op with
  | Zip => zip
  | Product => product
  end.

(** [op_dict = {zip: min, product: mul}] *)
Definition op_dict (op : Op) : nat → nat → nat :=
  match op with
  | Zip => Nat.min
  | Product => Nat.mul
  end.

(** [Cycler._compose], as the sequence the generator yields *)
Definition _compose {A B} (op : A → B → list (record * record)) (left : A) (right : B)
    : list record :=
  (λ '(a, b), update (update ∅ a) b) <$> op left right.

(** [Cycler.__iter__], as the sequence of records one iteration yields *)
Fixpoint __iter__ (self : Cycler) : list record :=
  match self with
  | Base _ _left => _left
  | Copy _ _left => __iter__ _left
  | Comp _ _left _right _op =>
      _compose (apply_op _op) (__iter__ _left) (__iter__ _right)
  end.

(** [Cycler.__len__] *)
Fixpoint __len__ (self : Cycler) : nat :=
  match self with
  | Base _ _left => length _left
  | Copy _ _left => __len__ _left
  | Comp _ _left _right _op => op_dict _op (__len__ _left) (__len__ _right)
  end.

(** [Cycler(c._left, c._right, c._op)]: how [__init__] copies a Cycler
    argument.  List arguments are copied record by record; the key set is
    computed afresh at every level. *)
Fixpoint reinit (c : Cycler) : result Cycler :=
  match c with
  | Base _ _left =>
      ks ← _process_keys (Some _left) None;
      Ok (Base ks _left)
  | Copy _ _left =>
      l ← reinit _left;
      ks ← _process_keys (Some (__iter__ l)) None;
      Ok (Copy ks l)
  | Comp _ _left _right _op =>
      l ← reinit _left;
      r ← reinit _right;
      ks ← _process_keys (Some (__iter__ l)) (Some (__iter__ r));
      Ok (Comp ks l r _op)
  end.

(** [Cycler.__init__(left, right, op)] for a Cycler [left] and a [right]
    that is [None] (then [op] is [None] too) or a Cycler with its
    operator. *)
Definition __init__ (left : Cycler) (right : option (Cycler * Op)) : result Cycler :=
  l ← reinit left;
  match right with
  | None =>
      ks ← _process_keys (Some (__iter__ l)) None;
      Ok (Copy ks l)
  | Some (other, op) =>
      r ← reinit other;
      ks ← _process_keys (Some (__iter__ l)) (Some (__iter__ r));
      Ok (Comp ks l r op)
  end.

(** [Cycler._from_iter(label, itr)] *)
Definition _from_iter (label : string) (itr : list value) : Cycler :=
  Base {[ label ]} ((λ v, {[ label := v ]}) <$> itr).

(** [Cycler.__add__] *)
Definition __add__ (self other : Cycler) : result Cycler :=
  if decide (__len__ self ≠ __len__ other) then
    Raise (UnequalLength (__len__ self) (__len__ other))
  else __init__ self (Some (other, Zip)).

(** [Cycler.__iadd__]: the receiver's new state.  [old_self] is the
    receiver as it was. *)
Definition __iadd__ (self other : Cycler) : result Cycler :=
  let old_self := self in
  ks ← _process_keys (Some (__iter__ old_self)) (Some (__iter__ other));
  r ← reinit other;
  Ok (Comp ks old_self r Zip).

(** [Cycler.__imul__] *)
Definition __imul__ (self other : Cycler) : result Cycler :=
  let old_self := self in
  ks ← _process_keys (Some (__iter__ old_self)) (Some (__iter__ other));
  r ← reinit other;
  Ok (Comp ks old_self r Product).

(** [Cycler.__eq__] *)
Definition __eq__ (self other : Cycler) : bool :=
  if decide (__len__ self ≠ __len__ other) then false
  else if decide ((keys self ∖ keys other) ∪ (keys other ∖ keys self) ≠ ∅) then false
  else forallb (λ '(a, b), bool_decide (a = b)) (zip (__iter__ self) (__iter__ other)).

(** [Cycler.change_key(old, new)]: the receiver's new state *)
Fixpoint change_key (old new : string) (self : Cycler) : result Cycler :=
  if decide (old = new) then Ok self
  else if decide (new ∈ keys self) then Raise (KeyAlreadyExists old new)
  else if decide (old ∉ keys self) then Raise (KeyNotFound old new)
  else
    let ks := (keys self ∖ {[ old ]}) ∪ {[ new ]} in
    match self with
    | Comp _ _left _right _op =>
        if decide (old ∈ keys _right) then
          r ← change_key old new _right; Ok (Comp ks _left r _op)
        else
          l ← change_key old new _left; Ok (Comp ks l _right _op)
    | Copy _ _left =>
        l ← change_key old new _left; Ok (Copy ks l)
    | Base _ _left =>
        l ← mapM (λ entry, v ← getitem entry old; Ok ({[ new := v ]} : record)) _left;
        Ok (Base ks l)
    end.

(** ** Transposition and the operations built on it *)

(** A [dict] from key to value list, in insertion order *)
Abbreviation columns := (list (string * list value)).

(** [d[k]] on such a dict *)
Definition columns_getitem (d : columns) (k : string) : result (list value) :=
  match list_find (λ kv, kv.1 = k) d with
  | Some (_, (_, v)) => Ok v
  | None => Raise (KeyError k)
  end.

(** [out[k].append(v)] *)
Definition columns_append (k : string) (v : value) (out : columns) : columns :=
  (λ kv, if decide (kv.1 = k) then (kv.1, kv.2 ++ [v]) else kv) <$> out.

(** What the second argument of [_cycler] may be *)
Inductive iterable :=
| Values (vs : list value)
| OfCycler (c : Cycler).

(** What [Cycler.__mul__] accepts *)
Inductive factor :=
| ByCycler (c : Cycler)
| ByInt (n : Z).

(** What [Cycler.__getitem__] may receive *)
Inductive index :=
| BySlice (s : slice)
| ByPosition (i : Z).

Section Transposition.
Context `{IterOrder}.

(** [Cycler.by_key] *)
Definition by_key (self : Cycler) : result columns :=
  let ks := set_order (keys self) in
  let out : columns := (λ k, (k, [])) <$> ks in
  foldlM (λ out d,
    foldlM (λ out k, v ← getitem d k; Ok (columns_append k v out)) out ks)
    out (__iter__ self).

(** [keys.pop()] *)
Definition set_pop (ks : gset string) : result string :=
  match set_order ks with
  | k :: _ => Ok k
  | [] => Raise (KeyError "pop from an empty set")
  end.

(** [_cycler(label, itr)] *)
Definition _cycler (label : string) (itr : iterable) : result Cycler :=
  match itr with
  | OfCycler c =>
      let ks := keys c in
      if decide (size ks ≠ 1) then Raise MultiProperty
      else
        lab ← set_pop ks;
        vs ← mapM (λ v, getitem v lab) (__iter__ c);
        Ok (_from_iter label vs)
  | Values vs => Ok (_from_iter label vs)
  end.

(** [cycler(arg)] *)
Definition cycler_copy (arg : Cycler) : result Cycler := __init__ arg None.

(** [cycler(label, itr)] *)
Definition cycler (label : string) (itr : iterable) : result Cycler :=
  _cycler label itr.

(** [cycler(label1=itr1, label2=itr2, ...)] *)
Definition cycler_kwargs (kwargs : list (string * iterable)) : result Cycler :=
  match kwargs with
  | [] => Raise NoArguments
  | _ => reduce __add__ ((λ kv, _cycler kv.1 kv.2) <$> kwargs)
  end.

(** [Cycler.__mul__] *)
Definition __mul__ (self : Cycler) (other : factor) : result Cycler :=
  match other with
  | ByCycler other => __init__ self (Some (other, Product))
  | ByInt other =>
      trans ← by_key self;
      reduce __add__
        ((λ kv, v ← list_repeat kv.2 other; _cycler kv.1 (Values v)) <$> trans)
  end.

(** [Cycler.__getitem__] *)
Definition __getitem__ (self : Cycler) (key : index) : result Cycler :=
  match key with
  | BySlice key =>
      trans ← by_key self;
      reduce __add__
        ((λ kv, v ← list_getslice key kv.2; _cycler kv.1 (Values v)) <$> trans)
  | ByPosition _ => Raise OnlySlices
  end.

(** [Cycler.simplify] *)
Definition simplify (self : Cycler) : result Cycler :=
  trans ← by_key self;
  reduce __add__ ((λ kv, _cycler kv.1 (Values kv.2)) <$> trans).

(** [concat(left, right)] *)
Definition concat (left right : Cycler) : result Cycler :=
  if decide (keys left ≠ keys right) then
    Raise (KeysDoNotMatch (keys left ∩ keys right)
             ((keys left ∖ keys right) ∪ (keys right ∖ keys left)))
  else
    _l ← by_key left;
    _r ← by_key right;
    reduce __add__
      ((λ k, l ← columns_getitem _l k; r ← columns_getitem _r k;
             _cycler k (Values (l ++ r))) <$> set_order (keys left)).

End Transposition.

(** ** The representation invariant and the reachable objects *)

(** What holds of every Cycler the module hands out:
    - a base Cycler has one key, and each stored record has exactly it;
    - a child of a [Copy] or [Comp] node yields at least one record
      ([__init__] peeks at it), and the node's [_keys] is what
      [_process_keys] computed from its children: their disjoint union. *)
Fixpoint wf (c : Cycler) : Prop :=
  match c with
  | Base ks l => size ks = 1 ∧ Forall (λ r : record, dom r = ks) l
  | Copy ks c' => wf c' ∧ __iter__ c' ≠ [] ∧ ks = keys c'
  | Comp ks l r _ =>
      wf l ∧ wf r ∧ __iter__ l ≠ [] ∧ __iter__ r ≠ [] ∧
      keys l ## keys r ∧ ks = keys l ∪ keys r
  end.

#[global] Instance wf_dec c : Decision (wf c).
Proof. induction c; simpl; apply _. Defined.

(** The Cyclers a client can obtain: the results of the constructors
    ([cycler] in its three forms, [Cycler(left, right, op)] on Cyclers) and
    of every method that returns a Cycler or mutates its receiver, applied
    to Cyclers obtained that way. *)
Inductive reachable `{IterOrder} : Cycler → Prop :=
| reach_cycler label itr c :
    (∀ a, itr = OfCycler a → reachable a) →
    cycler label itr = Ok c → reachable c
| reach_copy a c :
    reachable a → cycler_copy a = Ok c → reachable c
| reach_kwargs kwargs c :
    (∀ k a, (k, OfCycler a) ∈ kwargs → reachable a) →
    cycler_kwargs kwargs = Ok c → reachable c
| reach_init a b op c :
    reachable a → reachable b → __init__ a (Some (b, op)) = Ok c → reachable c
| reach_add a b c :
    reachable a → reachable b → __add__ a b = Ok c → reachable c
| reach_mul a f c :
    reachable a → (∀ b, f = ByCycler b → reachable b) →
    __mul__ a f = Ok c → reachable c
| reach_iadd a b c :
    reachable a → reachable b → __iadd__ a b = Ok c → reachable c
| reach_imul a b c :
    reachable a → reachable b → __imul__ a b = Ok c → reachable c
| reach_change_key old new a c :
    reachable a → change_key old new a = Ok c → reachable c
| reach_getitem a key c :
    reachable a → __getitem__ a key = Ok c → reachable c
| reach_simplify a c :
    reachable a → simplify a = Ok c → reachable c
| reach_concat a b c :
    reachable a → reachable b → concat a b = Ok c → reachable c.

(** The record [changeKey] leaves in place of [r]: the value stored under
    [old] moves to [new]. *)
Definition rename (old new : string) (r : record) : record :=
  match r !! old with
  | Some v => <[ new := v ]> (delete old r)
  | None => r
  end.

(** One column of a transposition: the values of key [k], record by
    record. *)
Definition column (k : string) (recs : list record) : list value :=
  (λ d : record, d !!! k) <$> recs.

(** ** Vocabulary of the statements *)

(** What [Cycler(a, b, op)] does on well-formed arguments. *)
Definition composed (a b : Cycler) (op : Op) : result Cycler :=
  if decide (__iter__ a = []) then Raise StopIteration
  else if decide (__iter__ b = []) then Raise StopIteration
  else if decide (keys a ∩ keys b ≠ ∅) then Raise OverlappingKeys
  else Ok (Comp (keys a ∪ keys b) a b op).

(** The part of a record that lies under the keys [K] *)
Definition restrict (K : gset string) (r : record) : record :=
  filter (λ kv, kv.1 ∈ K) r.

(** The base Cycler [_cycler] builds for key [k] from the column of [k] *)
Definition leaf (recs : list record) (k : string) : Cycler :=
  _from_iter k (column k recs).

(** ** Examples

    The Cyclers of the module's documentation, and small ones that reach
    the corner cases. *)

(** [cycler('color', 'rgb')] *)
Definition ex_color : Cycler := _from_iter "color" [VStr "r"; VStr "g"; VStr "b"].

(** [cycler('linestyle', ['-', '--', '-.'])] *)
Definition ex_linestyle : Cycler :=
  _from_iter "linestyle" [VStr "-"; VStr "--"; VStr "-."].

(** [cycler('lw', [1, 2])] *)
Definition ex_width : Cycler := _from_iter "lw" [VInt 1; VInt 2].

(** [cycler('a', [])] and [cycler('b', [])] *)
Definition ex_empty_a : Cycler := _from_iter "a" [].

Definition ex_empty_b : Cycler := _from_iter "b" [].

(** [cycler('a', [1, 2])], [cycler('a', [3])] and [cycler('b', [3])] *)
Definition ex_a12 : Cycler := _from_iter "a" [VInt 1; VInt 2].

Definition ex_a3 : Cycler := _from_iter "a" [VInt 3].

Definition ex_b3 : Cycler := _from_iter "b" [VInt 3].

(** [cycler('color', 'rgb') + cycler('linestyle', ['-', '--', '-.'])] *)
Definition ex_styles : Cycler :=
  Comp ({[ "color" ]} ∪ {[ "linestyle" ]}) ex_color ex_linestyle Zip.

(** [cycler('color', 'rgb') * cycler('lw', [1, 2])] *)
Definition ex_grid : Cycler :=
  Comp ({[ "color" ]} ∪ {[ "lw" ]}) ex_color ex_width Product.

(** A Cycler built with [+] alone: no node of the tree is a product. *)
Fixpoint only_sums (c : Cycler) : Prop :=
  match c with
  | Base _ _ => True
  | Copy _ c' => only_sums c'
  | Comp _ l r op => op = Zip ∧ only_sums l ∧ only_sums r
  end.

#[global] Instance only_sums_dec c : Decision (only_sums c).
Proof. induction c; simpl; apply _. Defined.

(** [itertools.cycle]: the first [n] items it yields.  [pending] is what
    is left of the first pass over the iterable, [saved] the items kept
    for the later passes; an iterable without items ends the cycle at
    once. *)
Fixpoint cycle_take {A} (n : nat) (pending saved : list A) : list A :=
  match n with
  | 0 => []
  | S n' =>
      match pending with
      | x :: pending' => x :: cycle_take n' pending' saved
      | [] =>
          match saved with
          | [] => []
          | x :: pending' => x :: cycle_take n' pending' saved
          end
      end
  end.

(** [Cycler.__call__]: the first [n] records of [cycle(self)] *)
Definition __call__ (self : Cycler) (n : nat) : list record :=
  cycle_take n (__iter__ self) (__iter__ self).

(** The records whose columns are [kw]: record [i] holds, under each key,
    the [i]-th value of that key's list. *)
Definition rows (kw : list (string * list value)) (n : nat) : list record :=
  (λ i, list_to_map ((λ kv, (kv.1, kv.2 !!! i)) <$> kw)) <$> seq 0 n.

(** * Proofs *)

(** ** Sequences: [zip] and [product] *)

Lemma zip_fmap_same {A B C} (f : A → B) (g : A → C) (l : list A) :
  zip (f <$> l) (g <$> l) = (λ x, (f x, g x)) <$> l.
Proof. induction l as [|x l IH]; csimpl; [done|]. by f_equal. Qed.

Lemma product_length {A B} (l : list A) (r : list B) :
  length (product l r) = length l * length r.
Proof.
  unfold product. induction l as [|a l IH]; csimpl; [done|].
  by rewrite length_app, length_fmap, IH.
Qed.

Lemma elem_of_product {A B} (l : list A) (r : list B) a b :
  (a, b) ∈ product l r → a ∈ l ∧ b ∈ r.
Proof.
  unfold product. rewrite list_elem_of_bind. intros (a' & Hab & Ha).
  apply list_elem_of_fmap in Hab as (b' & [= -> ->] & Hb). done.
Qed.

Lemma elem_of_apply_op {A B} op (l : list A) (r : list B) a b :
  (a, b) ∈ apply_op op l r → a ∈ l ∧ b ∈ r.
Proof.
  destruct op; simpl.
  - intros Hab. split; [by eapply elem_of_zip_l|by eapply elem_of_zip_r].
  - apply elem_of_product.
Qed.

Lemma product_nil_r {A B} (l : list A) : product l (@nil B) = [].
Proof. unfold product. by induction l. Qed.

Lemma apply_op_nil {A B} op (l : list A) (r : list B) :
  apply_op op l r = [] ↔ l = [] ∨ r = [].
Proof.
  destruct op, l as [|a l], r as [|b r]; simpl; rewrite ?product_nil_r;
    try (split; [by auto|done]); by split; [|intros [|]].
Qed.

Lemma product_fmap {A A' B B'} (f : A → A') (g : B → B') (l : list A) (r : list B) :
  product (f <$> l) (g <$> r) = prod_map f g <$> product l r.
Proof.
  unfold product. induction l as [|a l IH]; csimpl; [done|].
  rewrite fmap_app, IH. f_equal.
  rewrite <-!list_fmap_compose. done.
Qed.

Lemma apply_op_fmap {A A' B B'} op (f : A → A') (g : B → B') (l : list A) (r : list B) :
  apply_op op (f <$> l) (g <$> r) = prod_map f g <$> apply_op op l r.
Proof.
  destruct op; simpl; [|apply product_fmap].
  revert r. induction l as [|a l IH]; intros [|b r]; csimpl; [done..|].
  by f_equal.
Qed.

(** ** Iteration, length and the invariant *)

Lemma update_update (a b : record) : update (update ∅ a) b = b ∪ a.
Proof. unfold update. by rewrite (right_id_L ∅ (∪)). Qed.

Lemma iter_Comp ks l r op :
  __iter__ (Comp ks l r op) =
  (λ ab : record * record, ab.2 ∪ ab.1) <$> apply_op op (__iter__ l) (__iter__ r).
Proof.
  simpl. unfold _compose. apply list_fmap_ext. intros _ [a b] _. apply update_update.
Qed.

Lemma len_iter c : __len__ c = length (__iter__ c).
Proof.
  induction c as [ks l|ks c IH|ks l IHl r IHr op]; simpl; [done..|].
  unfold _compose. rewrite length_fmap, IHl, IHr.
  destruct op; simpl; [by rewrite length_zip|by rewrite product_length].
Qed.

Lemma iter_nil_len c : __iter__ c = [] ↔ __len__ c = 0.
Proof. rewrite len_iter. by destruct (__iter__ c). Qed.

(** Every record a well-formed Cycler yields has exactly its keys. *)
Lemma wf_dom c : wf c → Forall (λ r : record, dom r = keys c) (__iter__ c).
Proof.
  induction c as [ks l|ks c IH|ks l IHl r IHr op].
  - by intros [_ ?].
  - intros (Hc & _ & ->). simpl. auto.
  - intros (Hl & Hr & _ & _ & _ & Hks). rewrite iter_Comp. simpl. subst ks.
    apply Forall_fmap, Forall_forall. intros [a b] Hab; simpl.
    apply elem_of_apply_op in Hab as [Ha Hb].
    specialize (IHl Hl). specialize (IHr Hr).
    rewrite Forall_forall in IHl, IHr.
    rewrite dom_union_L, (IHl _ Ha), (IHr _ Hb). apply (comm_L (∪)).
Qed.

Lemma wf_keys_size c : wf c → size (keys c) ≠ 0.
Proof.
  induction c as [ks l|ks c IH|ks l IHl r IHr op]; simpl.
  - intros [-> _]. done.
  - intros (Hc & _ & ->). auto.
  - intros (Hl & Hr & _ & _ & Hdisj & ->).
    rewrite size_union by done. specialize (IHl Hl). lia.
Qed.

(** Only a base Cycler can be empty. *)
Lemma wf_empty c : wf c → __iter__ c = [] → ∃ ks, c = Base ks [].
Proof.
  destruct c as [ks l|ks c|ks l r op]; simpl.
  - intros _ ->. eauto.
  - by intros (_ & ? & _) ?.
  - intros (_ & _ & Hl & Hr & _) Hnil.
    apply fmap_nil_inv, apply_op_nil in Hnil as [?|?]; done.
Qed.

Lemma wf_empty_size c : wf c → __iter__ c = [] → size (keys c) = 1.
Proof.
  intros Hwf Hnil. destruct (wf_empty c Hwf Hnil) as [ks ->]. by destruct Hwf.
Qed.

Lemma wf_from_iter label vs : wf (_from_iter label vs).
Proof.
  split; [apply size_singleton|].
  apply Forall_fmap, Forall_forall. intros v _. simpl. apply dom_singleton_L.
Qed.

(** ** Key processing and construction *)

Lemma next_cons {A} (l : list A) : l ≠ [] → ∃ x l', l = x :: l' ∧ next l = Ok x.
Proof. destruct l; [done|eauto]. Qed.

Lemma process_keys_one c :
  wf c →
  _process_keys (Some (__iter__ c)) None =
  if decide (__iter__ c = []) then Raise StopIteration else Ok (keys c).
Proof.
  intros Hwf. apply wf_dom in Hwf. unfold _process_keys.
  case_decide as Hnil; [by rewrite Hnil|].
  destruct (next_cons _ Hnil) as (x & l' & Hl & ->). simpl.
  rewrite Hl in Hwf. apply Forall_cons_1 in Hwf as [-> _].
  rewrite dom_empty_L. rewrite decide_False by set_solver.
  f_equal. set_solver.
Qed.

Lemma process_keys_two a b :
  wf a → wf b →
  _process_keys (Some (__iter__ a)) (Some (__iter__ b)) =
  if decide (__iter__ a = []) then Raise StopIteration
  else if decide (__iter__ b = []) then Raise StopIteration
  else if decide (keys a ∩ keys b ≠ ∅) then Raise OverlappingKeys
  else Ok (keys a ∪ keys b).
Proof.
  intros Ha Hb. apply wf_dom in Ha, Hb. unfold _process_keys.
  case_decide as Hna; [by rewrite Hna|].
  destruct (next_cons _ Hna) as (x & l' & Hl & ->). simpl.
  case_decide as Hnb; [by rewrite Hnb|].
  destruct (next_cons _ Hnb) as (y & k' & Hk & ->). simpl.
  rewrite Hl in Ha. apply Forall_cons_1 in Ha as [-> _].
  rewrite Hk in Hb. apply Forall_cons_1 in Hb as [-> _]. done.
Qed.

(** Copying a non-empty well-formed Cycler gives it back: the key sets
    recomputed from the first records are the stored ones. *)
Lemma reinit_wf c : wf c → __iter__ c ≠ [] → reinit c = Ok c.
Proof.
  induction c as [ks l|ks c IH|ks l IHl r IHr op]; intros Hwf Hne.
  - pose proof (process_keys_one (Base ks l) Hwf) as Hp. simpl in *.
    rewrite Hp, decide_False by done. done.
  - pose proof Hwf as (Hc & Hn & ->). simpl in *.
    rewrite (IH Hc Hn). simpl.
    rewrite (process_keys_one c Hc), decide_False by done. done.
  - pose proof Hwf as (Hl & Hr & Hnl & Hnr & Hdisj & ->). simpl.
    rewrite (IHl Hl Hnl), (IHr Hr Hnr). simpl.
    rewrite (process_keys_two l r Hl Hr), !decide_False by (done || set_solver).
    done.
Qed.

Lemma reinit_empty c : wf c → __iter__ c = [] → reinit c = Raise StopIteration.
Proof. intros Hwf Hnil. by destruct (wf_empty c Hwf Hnil) as [ks ->]. Qed.

Lemma reinit_spec c :
  wf c →
  reinit c = if decide (__iter__ c = []) then Raise StopIteration else Ok c.
Proof.
  intros Hwf. case_decide; [by apply reinit_empty|by apply reinit_wf].
Qed.

Lemma init_comp_spec a b op :
  wf a → wf b → __init__ a (Some (b, op)) = composed a b op.
Proof.
  intros Ha Hb. unfold __init__, composed.
  rewrite (reinit_spec a Ha). case_decide as Hna; [done|]. simpl.
  rewrite (reinit_spec b Hb). case_decide as Hnb; [done|]. simpl.
  rewrite (process_keys_two a b Ha Hb), !decide_False by done.
  by case_decide.
Qed.

Lemma init_copy_spec a :
  wf a →
  __init__ a None =
  if decide (__iter__ a = []) then Raise StopIteration else Ok (Copy (keys a) a).
Proof.
  intros Ha. unfold __init__.
  rewrite (reinit_spec a Ha). case_decide as Hna; [done|]. simpl.
  by rewrite (process_keys_one a Ha), decide_False.
Qed.

Lemma add_spec a b :
  wf a → wf b →
  __add__ a b =
  if decide (__len__ a ≠ __len__ b) then Raise (UnequalLength (__len__ a) (__len__ b))
  else composed a b Zip.
Proof. intros Ha Hb. unfold __add__. case_decide; [done|]. by apply init_comp_spec. Qed.

Lemma iadd_spec a b : wf a → wf b → __iadd__ a b = composed a b Zip.
Proof.
  intros Ha Hb. unfold __iadd__, composed.
  rewrite (process_keys_two a b Ha Hb).
  repeat case_decide; try done. simpl.
  by rewrite (reinit_wf b).
Qed.

Lemma imul_spec a b : wf a → wf b → __imul__ a b = composed a b Product.
Proof.
  intros Ha Hb. unfold __imul__, composed.
  rewrite (process_keys_two a b Ha Hb).
  repeat case_decide; try done. simpl.
  by rewrite (reinit_wf b).
Qed.

Lemma composed_Ok a b op c :
  composed a b op = Ok c →
  __iter__ a ≠ [] ∧ __iter__ b ≠ [] ∧ keys a ## keys b ∧
  c = Comp (keys a ∪ keys b) a b op.
Proof.
  unfold composed. repeat case_decide; try done. intros [= <-].
  repeat split; try done. set_solver.
Qed.

Lemma composed_wf a b op c : wf a → wf b → composed a b op = Ok c → wf c.
Proof.
  intros Ha Hb (Hna & Hnb & Hdisj & ->)%composed_Ok. simpl. done.
Qed.

Lemma composed_empty a b op :
  __len__ a = 0 ∨ __len__ b = 0 → composed a b op = Raise StopIteration.
Proof.
  rewrite <-!iter_nil_len. unfold composed. intros [Hn|Hn].
  - by rewrite decide_True.
  - case_decide; [done|]. by rewrite decide_True.
Qed.


Lemma composed_disjoint a b op :
  __len__ a ≠ 0 → __len__ b ≠ 0 → keys a ## keys b →
  composed a b op = Ok (Comp (keys a ∪ keys b) a b op).
Proof.
  rewrite <-!iter_nil_len. unfold composed. intros Ha Hb Hk.
  repeat case_decide; try done. set_solver.
Qed.

Lemma union_records_comm (a b : record) (ka kb : gset string) :
  dom a = ka → dom b = kb → ka ## kb → b ∪ a = a ∪ b.
Proof.
  intros Ha Hb Hdisj. apply map_union_comm, map_disjoint_dom. set_solver.
Qed.


(** Iterating an outer composite: the outer loop is over the left
    records, the inner loop over the right ones. *)
Lemma iter_product_union ks a b :
  wf a → wf b → keys a ## keys b →
  __iter__ (Comp ks a b Product) =
  __iter__ a ≫= λ x, (λ y : record, x ∪ y) <$> __iter__ b.
Proof.
  intros Ha%wf_dom Hb%wf_dom Hdisj. rewrite iter_Comp. simpl. unfold product.
  revert Ha. generalize (__iter__ a). intros la.
  induction la as [|x la IH]; intros Hla; csimpl; [done|].
  apply Forall_cons_1 in Hla as [Hx Hla].
  rewrite fmap_app, IH by done. f_equal.
  rewrite <-list_fmap_compose. apply Forall_fmap_ext.
  eapply Forall_impl; [exact Hb|]. intros y Hy. simpl in *.
  by apply (union_records_comm x y (keys a) (keys b)).
Qed.

(** ** Transposition *)

Section Transposed.
Context `{IterOrder}.

Lemma set_order_NoDup s : NoDup (set_order s).
Proof. rewrite set_order_perm. apply NoDup_elements. Qed.

Lemma elem_of_set_order s k : k ∈ set_order s ↔ k ∈ s.
Proof. rewrite set_order_perm. apply elem_of_elements. Qed.

Lemma list_to_set_set_order (s : gset string) : list_to_set (set_order s) = s.
Proof. apply set_eq. intros k. by rewrite elem_of_list_to_set, elem_of_set_order. Qed.

Lemma set_order_length s : length (set_order s) = size s.
Proof. by rewrite set_order_perm. Qed.

Lemma columns_append_fmap k v (g : string → list value) (ks : list string) :
  columns_append k v ((λ k', (k', g k')) <$> ks) =
  (λ k', (k', if decide (k' = k) then g k' ++ [v] else g k')) <$> ks.
Proof.
  unfold columns_append. rewrite <-list_fmap_compose. apply list_fmap_ext.
  intros _ k' _. simpl. by case_decide.
Qed.

Lemma columns_getitem_fmap (g : string → list value) (ks : list string) k :
  k ∈ ks → columns_getitem ((λ k', (k', g k')) <$> ks) k = Ok (g k).
Proof.
  unfold columns_getitem. induction ks as [|k0 ks IH]; [by intros ?%elem_of_nil|].
  intros Hk. csimpl. case_decide as Hk0; simpl in *; [by subst|].
  apply elem_of_cons in Hk as [->|Hk]; [done|]. specialize (IH Hk).
  destruct (list_find _ _) as [[? [? ?]]|]; simpl in *; [done|done].
Qed.

Lemma getitem_total (d : record) k : k ∈ dom d → getitem d k = Ok (d !!! k).
Proof.
  intros [v Hv]%elem_of_dom. unfold getitem.
  by rewrite (lookup_total_correct _ _ _ Hv), Hv.
Qed.

(** The inner loop of [by_key]: one record appended to the columns of
    the keys walked. *)
Lemma by_key_inner (d : record) (ks1 ks : list string) (g : string → list value) :
  NoDup ks1 → (∀ k, k ∈ ks1 → k ∈ dom d) →
  foldlM (λ out k, v ← getitem d k; Ok (columns_append k v out))
    ((λ k, (k, g k)) <$> ks) ks1 =
  Ok ((λ k, (k, if decide (k ∈ ks1) then g k ++ [d !!! k] else g k)) <$> ks).
Proof.
  revert g. induction ks1 as [|k1 ks1 IH]; intros g Hnd Hdom; simpl.
  - done.
  - apply NoDup_cons in Hnd as [Hk1 Hnd].
    rewrite getitem_total by (apply Hdom; left). simpl.
    rewrite columns_append_fmap, IH; [|done|by intros k ?; apply Hdom; right].
    f_equal. apply list_fmap_ext. intros _ k _. f_equal.
    destruct (decide (k = k1)) as [->|Hne].
    + rewrite decide_False by done. by rewrite decide_True by left.
    + destruct (decide (k ∈ ks1)) as [Hin|Hin].
      * by rewrite decide_True by (by right).
      * rewrite decide_False; [done|]. by intros [?|?]%elem_of_cons.
Qed.

Lemma by_key_outer (recs : list record) (ks : list string) (g : string → list value) :
  NoDup ks → Forall (λ d : record, ∀ k, k ∈ ks → k ∈ dom d) recs →
  foldlM (λ out d,
    foldlM (λ out k, v ← getitem d k; Ok (columns_append k v out)) out ks)
    ((λ k, (k, g k)) <$> ks) recs =
  Ok ((λ k, (k, g k ++ column k recs)) <$> ks).
Proof.
  intros Hnd. revert g. induction recs as [|d recs IH]; intros g Hdom; simpl.
  - f_equal. apply list_fmap_ext. intros _ k _. by rewrite (right_id_L [] (++)).
  - apply Forall_cons_1 in Hdom as [Hd Hdom].
    rewrite by_key_inner by done. simpl. rewrite IH by done.
    f_equal. apply Forall_fmap_ext, Forall_forall. intros k Hk.
    rewrite decide_True by done. by rewrite <-(assoc_L (++)).
Qed.

(** [by_key] on a well-formed Cycler: one column per key, in the walking
    order of the key set. *)
Lemma by_key_spec c :
  wf c →
  by_key c = Ok ((λ k, (k, column k (__iter__ c))) <$> set_order (keys c)).
Proof.
  intros Hwf%wf_dom. unfold by_key.
  rewrite (by_key_outer _ _ (λ _, [])); [done|apply set_order_NoDup|].
  eapply Forall_impl; [exact Hwf|]. intros d Hd k Hk. simpl in Hd.
  by rewrite Hd, <-elem_of_set_order.
Qed.

End Transposed.

(** ** Rebuilding a Cycler from its columns *)

Lemma restrict_all K (d : record) : dom d = K → restrict K d = d.
Proof.
  intros <-. apply map_filter_id. intros k v Hk. simpl. apply elem_of_dom. eauto.
Qed.

Lemma restrict_singleton k (d : record) :
  k ∈ dom d → restrict {[ k ]} d = {[ k := d !!! k ]}.
Proof.
  intros [v Hv]%elem_of_dom. rewrite (lookup_total_correct _ _ _ Hv).
  apply map_eq. intros i. apply option_eq. intros x. unfold restrict.
  rewrite map_lookup_filter_Some, lookup_singleton_Some. simpl.
  rewrite elem_of_singleton. split.
  - intros [Hi ->]. split; [done|]. congruence.
  - intros [<- <-]. done.
Qed.

Lemma restrict_union_singleton K k (d : record) :
  k ∈ dom d → k ∉ K →
  {[ k := d !!! k ]} ∪ restrict K d = restrict (K ∪ {[ k ]}) d.
Proof.
  intros [v Hv]%elem_of_dom Hk. rewrite (lookup_total_correct _ _ _ Hv).
  apply map_eq. intros i. apply option_eq. intros x. unfold restrict.
  rewrite lookup_union_Some_raw, !map_lookup_filter_Some, lookup_singleton_Some,
    lookup_singleton_None. simpl.
  rewrite elem_of_union, elem_of_singleton. split.
  - intros [[<- <-]|(Hne & Hi & HK)]; [split; [done|by right]|].
    split; [done|by left].
  - intros [Hi [HK| ->]].
    + right. split; [|done]. by intros <-.
    + left. split; [done|]. congruence.
Qed.

Lemma iter_leaf recs k :
  __iter__ (leaf recs k) = (λ d : record, {[ k := d !!! k ]}) <$> recs.
Proof. simpl. unfold column. by rewrite <-list_fmap_compose. Qed.

Lemma len_leaf recs k : __len__ (leaf recs k) = length recs.
Proof. by rewrite len_iter, iter_leaf, length_fmap. Qed.

Lemma iter_leaf_restrict recs k :
  Forall (λ d : record, k ∈ dom d) recs →
  __iter__ (leaf recs k) = restrict {[ k ]} <$> recs.
Proof.
  intros Hdom. rewrite iter_leaf. apply Forall_fmap_ext.
  eapply Forall_impl; [exact Hdom|]. intros d Hd. simpl in *.
  by rewrite restrict_singleton.
Qed.

(** One [+] of the reduction: the accumulated Cycler gains the column
    of [k]. *)
Lemma rebuild_step acc K k recs :
  wf acc → keys acc = K → __iter__ acc = restrict K <$> recs →
  k ∉ K → recs ≠ [] → Forall (λ d : record, k ∈ dom d) recs →
  ∃ R, __add__ acc (leaf recs k) = Ok R ∧ wf R ∧ keys R = K ∪ {[ k ]} ∧
       __iter__ R = restrict (K ∪ {[ k ]}) <$> recs.
Proof.
  intros Hwf HK Hiter Hk Hne Hdom.
  assert (Hlen : __len__ acc = length recs)
    by (by rewrite len_iter, Hiter, length_fmap).
  exists (Comp (K ∪ {[ k ]}) acc (leaf recs k) Zip).
  rewrite add_spec by (done || apply wf_from_iter).
  rewrite decide_False by (rewrite len_leaf; lia).
  rewrite composed_disjoint; simpl keys; rewrite ?HK.
  - split; [done|]. split; [|split; [done|]].
    + change (wf acc ∧ wf (leaf recs k) ∧ __iter__ acc ≠ [] ∧
              __iter__ (leaf recs k) ≠ [] ∧ keys acc ## keys (leaf recs k) ∧
              K ∪ {[ k ]} = keys acc ∪ keys (leaf recs k)).
      rewrite iter_leaf, Hiter, HK. simpl keys.
      split_and!; [done|apply wf_from_iter|by destruct recs..|set_solver|done].
    + rewrite iter_Comp, iter_leaf, Hiter. simpl.
      rewrite zip_fmap_same, <-list_fmap_compose. apply Forall_fmap_ext.
      eapply Forall_impl; [exact Hdom|]. intros d Hd. simpl in *.
      by apply restrict_union_singleton.
  - rewrite Hlen. by destruct recs.
  - rewrite len_leaf. by destruct recs.
  - set_solver.
Qed.

Lemma rebuild_fold ks acc K recs :
  NoDup ks → (∀ k, k ∈ ks → k ∉ K) →
  wf acc → keys acc = K → __iter__ acc = restrict K <$> recs →
  (ks ≠ [] → recs ≠ []) →
  Forall (λ d : record, ∀ k, k ∈ ks → k ∈ dom d) recs →
  ∃ R, foldlM (λ acc y, b ← y; __add__ acc b) acc
         ((λ k, Ok (leaf recs k)) <$> ks) = Ok R ∧
       wf R ∧ keys R = K ∪ list_to_set ks ∧
       __iter__ R = restrict (K ∪ list_to_set ks) <$> recs.
Proof.
  revert acc K. induction ks as [|k ks IH]; intros acc K Hnd Hfresh Hwf HK Hiter Hne Hdom.
  - exists acc. simpl. rewrite (right_id_L ∅ (∪)). done.
  - apply NoDup_cons in Hnd as [Hk Hnd]. csimpl.
    destruct (rebuild_step acc K k recs) as (R & -> & HwfR & HKR & HiterR);
      [done|done|done|by apply Hfresh; left|by apply Hne|..].
    { eapply Forall_impl; [exact Hdom|]. intros d Hd. apply Hd. by left. }
    destruct (IH R (K ∪ {[ k ]})) as (R' & HR' & HwfR' & HKR' & HiterR');
      [done| |done|done|done|by intros _; apply Hne|..].
    { intros k' Hk'. intros [?| ->%elem_of_singleton]%elem_of_union; [|done].
      eapply Hfresh; [by right|done]. }
    { eapply Forall_impl; [exact Hdom|]. intros d Hd k' Hk'. apply Hd. by right. }
    exists R'. split; [done|]. split; [done|].
    rewrite (assoc_L (∪)). done.
Qed.

(** [reduce(add, (_cycler(k, column k) for k in ks))]: a Cycler whose
    iteration is [recs] again.  With more than one key the columns must be
    non-empty, or the first [+] fails on its peek. *)
Lemma rebuild ks recs :
  NoDup ks → ks ≠ [] → (length ks = 1 ∨ recs ≠ []) →
  Forall (λ d : record, dom d = list_to_set ks) recs →
  ∃ R, reduce __add__ ((λ k, Ok (leaf recs k)) <$> ks) = Ok R ∧
       wf R ∧ keys R = list_to_set ks ∧ __iter__ R = recs.
Proof.
  intros Hnd Hks Hne Hdom. destruct ks as [|k ks]; [done|]. csimpl.
  apply NoDup_cons in Hnd as [Hk Hnd].
  destruct (rebuild_fold ks (leaf recs k) {[ k ]} recs) as (R & HR & HwfR & HKR & HiterR);
    [done| |apply wf_from_iter|done| | |..].
  - intros k' Hk' ->%elem_of_singleton. done.
  - apply iter_leaf_restrict. eapply Forall_impl; [exact Hdom|].
    intros d ->. simpl. set_solver.
  - intros Hks'. destruct Hne as [Hlen|?]; [|done]. by destruct ks.
  - eapply Forall_impl; [exact Hdom|]. intros d -> k' Hk'. simpl.
    rewrite elem_of_union, elem_of_list_to_set. by right.
  - exists R. split; [done|]. split; [done|]. split; [done|].
    rewrite HiterR. transitivity (id <$> recs); [|apply list_fmap_id].
    apply Forall_fmap_ext. eapply Forall_impl; [exact Hdom|].
    intros d Hd. simpl in *. by apply restrict_all.
Qed.

Lemma column_app k (r1 r2 : list record) :
  column k (r1 ++ r2) = column k r1 ++ column k r2.
Proof. apply fmap_app. Qed.

Lemma list_mul_fmap {A B} (f : A → B) (v : list A) n :
  list_mul (f <$> v) n = f <$> list_mul v n.
Proof.
  unfold list_mul. induction (Z.to_nat n) as [|m IH]; csimpl; [done|].
  by rewrite fmap_app, IH.
Qed.

Lemma list_mul_Forall {A} (P : A → Prop) (v : list A) n :
  Forall P v → Forall P (list_mul v n).
Proof.
  intros Hv. unfold list_mul. induction (Z.to_nat n) as [|m IH]; csimpl; [done|].
  by apply Forall_app.
Qed.

Lemma list_mul_length {A} (v : list A) n :
  length (list_mul v n) = Z.to_nat n * length v.
Proof.
  unfold list_mul. induction (Z.to_nat n) as [|m IH]; csimpl; [done|].
  rewrite length_app, IH. lia.
Qed.

Lemma list_mul_1 {A} (v : list A) : list_mul v 1 = v.
Proof. unfold list_mul. simpl. apply (right_id_L [] (++)). Qed.

Lemma forallb_zip_same (l : list record) :
  forallb (λ '(a, b), bool_decide (a = b)) (zip l l) = true.
Proof.
  induction l as [|x l IH]; simpl; [done|].
  by rewrite bool_decide_eq_true_2.
Qed.

Lemma eq_of_iter a b :
  keys a = keys b → __iter__ a = __iter__ b → __eq__ a b = true.
Proof.
  intros Hk Hi. unfold __eq__. rewrite !len_iter, Hi, Hk.
  rewrite decide_False by (by intros []).
  rewrite decide_False by (intros Hne; apply Hne; set_solver).
  apply forallb_zip_same.
Qed.

Section Rebuilt.
Context `{IterOrder}.

Lemma rebuild_keys K recs :
  size K ≠ 0 → (size K = 1 ∨ recs ≠ []) →
  Forall (λ d : record, dom d = K) recs →
  ∃ R, reduce __add__ ((λ k, Ok (leaf recs k)) <$> set_order K) = Ok R ∧
       wf R ∧ keys R = K ∧ __iter__ R = recs.
Proof.
  intros HK Hne Hdom.
  destruct (rebuild (set_order K) recs) as (R & HR & Hwf & Hkeys & Hiter).
  - apply set_order_NoDup.
  - intros Hnil. apply HK. rewrite <-set_order_length, Hnil. done.
  - by rewrite set_order_length.
  - by rewrite list_to_set_set_order.
  - exists R. by rewrite list_to_set_set_order in Hkeys.
Qed.

(** The shape every rebuilding method reduces to: the columns of [c],
    each passed through [f], where [f] acts on the record sequence as
    [F]. *)
Lemma rebuild_columns c (f : list value → list value) (F : list record → list record) :
  wf c →
  (∀ k, f (column k (__iter__ c)) = column k (F (__iter__ c))) →
  Forall (λ d : record, dom d = keys c) (F (__iter__ c)) →
  (size (keys c) = 1 ∨ F (__iter__ c) ≠ []) →
  ∃ R, reduce __add__
         ((λ kv, _cycler kv.1 (Values (f kv.2))) <$>
          ((λ k, (k, column k (__iter__ c))) <$> set_order (keys c))) = Ok R ∧
       wf R ∧ keys R = keys c ∧ __iter__ R = F (__iter__ c).
Proof.
  intros Hwf Hf Hdom Hne.
  destruct (rebuild_keys (keys c) (F (__iter__ c))) as (R & HR & HwfR & HK & Hi);
    [by apply wf_keys_size|done|done|].
  exists R. split; [|done]. rewrite <-HR. f_equal.
  rewrite <-list_fmap_compose. apply list_fmap_ext. intros _ k _. simpl.
  by rewrite Hf.
Qed.

Lemma simplify_spec c :
  wf c →
  ∃ R, simplify c = Ok R ∧ wf R ∧ keys R = keys c ∧ __iter__ R = __iter__ c.
Proof.
  intros Hwf. unfold simplify. rewrite by_key_spec by done. simpl.
  apply (rebuild_columns c id id); [done|done|by apply wf_dom|].
  destruct (decide (__iter__ c = [])) as [Hnil|?]; [|by right].
  left. by apply wf_empty_size.
Qed.

Lemma bind_Ok {A B} (x : A) (f : A → result B) : Ok x ≫= f = f x.
Proof. done. Qed.

Lemma MAX_LIST_SIZE_pos : (0 < MAX_LIST_SIZE)%Z.
Proof. done. Qed.

Lemma MAX_LIST_SIZE_le : (MAX_LIST_SIZE ≤ PY_SSIZE_T_MAX)%Z.
Proof. done. Qed.

Lemma list_repeat_fits {A} (v : list A) n :
  (- PY_SSIZE_T_MAX - 1 ≤ n ≤ PY_SSIZE_T_MAX)%Z →
  (Z.of_nat (length v) * n ≤ MAX_LIST_SIZE)%Z →
  list_repeat v n = Ok (list_mul v n).
Proof.
  intros Hn Hsz. unfold list_repeat.
  rewrite decide_False by lia. by rewrite decide_False by lia.
Qed.

Lemma list_repeat_overflow {A} (v : list A) n :
  (n < - PY_SSIZE_T_MAX - 1 ∨ PY_SSIZE_T_MAX < n)%Z →
  list_repeat v n = Raise OverflowError.
Proof. intros Hn. unfold list_repeat. by rewrite decide_True. Qed.

Lemma column_length k (recs : list record) : length (column k recs) = length recs.
Proof. apply length_fmap. Qed.

(** The generator of [c * n], when every column can be repeated. *)
Lemma mul_int_gen c n :
  (- PY_SSIZE_T_MAX - 1 ≤ n ≤ PY_SSIZE_T_MAX)%Z →
  (Z.of_nat (__len__ c) * n ≤ MAX_LIST_SIZE)%Z →
  (λ kv : string * list value,
     v ← list_repeat kv.2 n; _cycler kv.1 (Values v)) <$>
    ((λ k, (k, column k (__iter__ c))) <$> set_order (keys c)) =
  (λ kv, _cycler kv.1 (Values (list_mul kv.2 n))) <$>
    ((λ k, (k, column k (__iter__ c))) <$> set_order (keys c)).
Proof.
  intros Hn Hsz. rewrite <-!list_fmap_compose. apply list_fmap_ext.
  intros _ k _. simpl. rewrite list_repeat_fits; [done..|].
  by rewrite column_length, <-len_iter.
Qed.

Lemma mul_int_spec c n :
  wf c →
  (- PY_SSIZE_T_MAX - 1 ≤ n ≤ PY_SSIZE_T_MAX)%Z →
  (Z.of_nat (__len__ c) * n ≤ MAX_LIST_SIZE)%Z →
  (size (keys c) = 1 ∨ (0 < n)%Z) →
  ∃ R, __mul__ c (ByInt n) = Ok R ∧ wf R ∧ keys R = keys c ∧
       __iter__ R = list_mul (__iter__ c) n.
Proof.
  intros Hwf Hrange Hfits Hn. unfold __mul__. rewrite by_key_spec by done.
  rewrite bind_Ok, mul_int_gen by done.
  apply (rebuild_columns c (λ v, list_mul v n) (λ r, list_mul r n)); [done|..].
  - intros k. apply list_mul_fmap.
  - by apply list_mul_Forall, wf_dom.
  - destruct (decide (size (keys c) = 1)) as [?|Hsz]; [by left|right].
    destruct Hn as [?|Hn]; [done|].
    assert (__iter__ c ≠ []) as Hne by (by intros ?%wf_empty_size).
    intros Hnil%(f_equal length). rewrite list_mul_length in Hnil.
    destruct (__iter__ c); [done|]. simpl in Hnil. lia.
Qed.

Lemma mul_int_0_multi c n :
  wf c → size (keys c) ≠ 1 → (- PY_SSIZE_T_MAX - 1 ≤ n ≤ 0)%Z →
  __mul__ c (ByInt n) = Raise StopIteration.
Proof.
  intros Hwf Hsz Hn. unfold __mul__. rewrite by_key_spec by done.
  pose proof MAX_LIST_SIZE_pos. pose proof MAX_LIST_SIZE_le.
  rewrite bind_Ok, mul_int_gen by nia.
  pose proof (wf_keys_size c Hwf) as Hsz0.
  rewrite <-set_order_length in Hsz, Hsz0.
  destruct (set_order (keys c)) as [|k1 [|k2 ks]]; [done..|]. csimpl.
  unfold list_mul. replace (Z.to_nat n) with 0 by lia. done.
Qed.

Lemma mul_int_overflow c n :
  wf c → (n < - PY_SSIZE_T_MAX - 1 ∨ PY_SSIZE_T_MAX < n)%Z →
  __mul__ c (ByInt n) = Raise OverflowError.
Proof.
  intros Hwf Hn. unfold __mul__. rewrite by_key_spec by done. rewrite bind_Ok.
  pose proof (wf_keys_size c Hwf) as Hsz0. rewrite <-set_order_length in Hsz0.
  destruct (set_order (keys c)) as [|k1 ks]; [simpl in Hsz0; lia|]. csimpl.
  by rewrite list_repeat_overflow.
Qed.

Lemma concat_spec a b :
  wf a → wf b → keys a = keys b →
  ∃ R, concat a b = Ok R ∧ wf R ∧ keys R = keys a ∧
       __iter__ R = __iter__ a ++ __iter__ b.
Proof.
  intros Ha Hb Hk. unfold concat. rewrite decide_False by (by intros []).
  rewrite !by_key_spec by done. simpl. rewrite <-Hk.
  destruct (rebuild_keys (keys a) (__iter__ a ++ __iter__ b)) as (R & HR & HwfR & HK & Hi).
  - by apply wf_keys_size.
  - destruct (decide (__iter__ a = [])) as [Hnil|Hne]; [left; by apply wf_empty_size|].
    right. by destruct (__iter__ a).
  - apply Forall_app. split; [by apply wf_dom|]. rewrite Hk. by apply wf_dom.
  - exists R. split; [|done]. rewrite <-HR. f_equal.
    apply Forall_fmap_ext, Forall_forall. intros k Hk'.
    rewrite !columns_getitem_fmap by done. simpl.
    unfold leaf. by rewrite column_app.
Qed.

End Rebuilt.

(** ** Renaming a key *)

Lemma mapM_Ok {A B} (f : A → result B) (g : A → B) (l : list A) :
  Forall (λ x, f x = Ok (g x)) l → mapM f l = Ok (g <$> l).
Proof.
  induction 1 as [|x l Hx Hl IH]; [done|].
  change (mapM f (x :: l)) with (y ← f x; k ← mapM f l; mret (y :: k)).
  by rewrite Hx, IH.
Qed.

Lemma dom_rename old new (r : record) :
  old ∈ dom r → dom (rename old new r) = dom r ∖ {[ old ]} ∪ {[ new ]}.
Proof.
  intros [v Hv]%elem_of_dom. unfold rename. rewrite Hv.
  rewrite dom_insert_L, dom_delete_L. apply (comm_L (∪)).
Qed.

Lemma rename_single old new (r : record) :
  dom r = {[ old ]} →
  (v ← getitem r old; Ok ({[ new := v ]} : record)) = Ok (rename old new r).
Proof.
  intros Hdom. assert (old ∈ dom r) as [v Hv]%elem_of_dom by set_solver.
  unfold getitem, rename. rewrite Hv. simpl. f_equal.
  assert (delete old r = ∅) as ->; [|done].
  apply dom_empty_inv_L. rewrite dom_delete_L, Hdom. set_solver.
Qed.

Lemma rename_union_l old new (a b : record) :
  old ∈ dom b → old ∉ dom a → new ∉ dom a →
  rename old new b ∪ a = rename old new (b ∪ a).
Proof.
  intros [v Hv]%elem_of_dom Ha%not_elem_of_dom Hn%not_elem_of_dom.
  unfold rename. rewrite Hv, (lookup_union_Some_l _ _ _ _ Hv).
  by rewrite delete_union, (delete_id a), insert_union_l.
Qed.

Lemma rename_union_r old new (a b : record) :
  old ∈ dom a → old ∉ dom b → new ∉ dom b →
  b ∪ rename old new a = rename old new (b ∪ a).
Proof.
  intros [v Hv]%elem_of_dom Hb%not_elem_of_dom Hn%not_elem_of_dom.
  unfold rename. rewrite Hv, lookup_union_r, Hv by done.
  rewrite delete_union, (delete_id b) by done.
  by rewrite insert_union_r by done.
Qed.

Lemma change_key_same old c : change_key old old c = Ok c.
Proof. destruct c; cbn [change_key]; by rewrite decide_True. Qed.

Lemma change_key_exists old new c :
  old ≠ new → new ∈ keys c → change_key old new c = Raise (KeyAlreadyExists old new).
Proof.
  intros Hne Hnew.
  destruct c; cbn [change_key]; by rewrite decide_False, decide_True.
Qed.

Lemma change_key_missing old new c :
  old ≠ new → new ∉ keys c → old ∉ keys c →
  change_key old new c = Raise (KeyNotFound old new).
Proof.
  intros Hne Hnew Hold.
  destruct c; cbn [change_key];
    by rewrite (decide_False (P:=old = new)), (decide_False (P:=new ∈ _)), decide_True.
Qed.

Lemma change_key_unfold old new c :
  old ≠ new → new ∉ keys c → old ∈ keys c →
  change_key old new c =
  match c with
  | Comp _ l r op =>
      if decide (old ∈ keys r) then
        r' ← change_key old new r; Ok (Comp (keys c ∖ {[ old ]} ∪ {[ new ]}) l r' op)
      else
        l' ← change_key old new l; Ok (Comp (keys c ∖ {[ old ]} ∪ {[ new ]}) l' r op)
  | Copy _ l => l' ← change_key old new l; Ok (Copy (keys c ∖ {[ old ]} ∪ {[ new ]}) l')
  | Base _ l =>
      l' ← mapM (λ entry, v ← getitem entry old; Ok ({[ new := v ]} : record)) l;
      Ok (Base (keys c ∖ {[ old ]} ∪ {[ new ]}) l')
  end.
Proof.
  intros Hne Hnew Hold.
  destruct c; cbn [change_key];
    rewrite (decide_False (P:=old = new)), (decide_False (P:=new ∈ _)),
      (decide_False (P:=old ∉ _)); try done; by intros ?.
Qed.


(** A renamed right record merges to the renamed merge. *)
Lemma iter_Comp_rename_r old new ks ks' l r r' op :
  wf l → wf r → old ∈ keys r → old ∉ keys l → new ∉ keys l →
  __iter__ r' = rename old new <$> __iter__ r →
  __iter__ (Comp ks' l r' op) = rename old new <$> __iter__ (Comp ks l r op).
Proof.
  intros Hdl%wf_dom Hdr%wf_dom Hor Hol Hnl Hi. rewrite !iter_Comp, Hi.
  rewrite <-(list_fmap_id (__iter__ l)) at 1.
  rewrite apply_op_fmap, <-!list_fmap_compose.
  apply Forall_fmap_ext, Forall_forall. intros [a b] [Ha Hb]%elem_of_apply_op.
  rewrite Forall_forall in Hdl, Hdr. simpl.
  apply rename_union_l; by rewrite ?(Hdl _ Ha), ?(Hdr _ Hb).
Qed.

Lemma iter_Comp_rename_l old new ks ks' l l' r op :
  wf l → wf r → old ∈ keys l → old ∉ keys r → new ∉ keys r →
  __iter__ l' = rename old new <$> __iter__ l →
  __iter__ (Comp ks' l' r op) = rename old new <$> __iter__ (Comp ks l r op).
Proof.
  intros Hdl%wf_dom Hdr%wf_dom Hol Hor Hnr Hi. rewrite !iter_Comp, Hi.
  rewrite <-(list_fmap_id (__iter__ r)) at 1.
  rewrite apply_op_fmap, <-!list_fmap_compose.
  apply Forall_fmap_ext, Forall_forall. intros [a b] [Ha Hb]%elem_of_apply_op.
  rewrite Forall_forall in Hdl, Hdr. simpl.
  apply rename_union_r; by rewrite ?(Hdl _ Ha), ?(Hdr _ Hb).
Qed.

(** Renaming in a well-formed Cycler: the key set is updated, the
    invariant kept, and every record yielded is the old one renamed. *)
Lemma change_key_spec old new c :
  wf c → old ≠ new → new ∉ keys c → old ∈ keys c →
  ∃ c', change_key old new c = Ok c' ∧ wf c' ∧
        keys c' = keys c ∖ {[ old ]} ∪ {[ new ]} ∧
        __iter__ c' = rename old new <$> __iter__ c.
Proof.
  intros Hwf Hne. induction c as [ks l|ks c IH|ks l IHl r IHr op];
    intros Hnew Hold; rewrite change_key_unfold by done; cbn [keys] in *.
  - destruct Hwf as [Hsz Hdom].
    assert (ks = {[ old ]}) as ->.
    { apply size_1_elem_of in Hsz as [k Hk]. set_solver. }
    rewrite (mapM_Ok _ (rename old new)), bind_Ok.
    2:{ eapply Forall_impl; [exact Hdom|]. intros d Hd. by apply rename_single. }
    eexists. split; [done|]. split; [|done]. split.
    + rewrite size_union by set_solver. rewrite size_singleton.
      replace ({[ old ]} ∖ {[ old ]} : gset string) with (∅ : gset string) by set_solver.
      done.
    + apply Forall_fmap. eapply Forall_impl; [exact Hdom|]. intros d Hd. simpl.
      rewrite dom_rename, Hd; [done|]. rewrite Hd. set_solver.
  - destruct Hwf as (Hwf & Hn & ->).
    destruct (IH Hwf Hnew Hold) as (c' & -> & Hwf' & Hk' & Hi'). rewrite bind_Ok.
    eexists. split; [done|]. simpl. rewrite Hi'.
    split_and!; [done|by destruct (__iter__ c)|done|done|done].
  - destruct Hwf as (Hwl & Hwr & Hnl & Hnr & Hdisj & ->).
    apply not_elem_of_union in Hnew as [Hnewl Hnewr]. case_decide as Hor.
    + destruct (IHr Hwr Hnewr Hor) as (r' & -> & Hwf' & Hk' & Hi'). rewrite bind_Ok.
      eexists. split; [done|]. split_and!.
      * simpl. rewrite Hi', Hk'.
        split_and!; [done|done|done|by destruct (__iter__ r)|set_solver|set_solver].
      * done.
      * apply iter_Comp_rename_r; [done..|set_solver|done|done].
    + assert (old ∈ keys l) as Hol by set_solver.
      destruct (IHl Hwl Hnewl Hol) as (l' & -> & Hwf' & Hk' & Hi'). rewrite bind_Ok.
      eexists. split; [done|]. split_and!.
      * simpl. rewrite Hi', Hk'.
        split_and!; [done|done|by destruct (__iter__ l)|done|set_solver|set_solver].
      * done.
      * by apply iter_Comp_rename_l.
Qed.

Lemma change_key_wf old new c c' : wf c → change_key old new c = Ok c' → wf c'.
Proof.
  intros Hwf Hc. destruct (decide (old = new)) as [->|Hne].
  { rewrite change_key_same in Hc. by injection Hc as <-. }
  destruct (decide (new ∈ keys c)) as [Hnew|Hnew].
  { by rewrite change_key_exists in Hc. }
  destruct (decide (old ∈ keys c)) as [Hold|Hold].
  - destruct (change_key_spec old new c) as (c'' & Hc'' & Hwf'' & _); [done..|].
    congruence.
  - by rewrite change_key_missing in Hc.
Qed.

(** ** Every reachable Cycler is well-formed *)

Lemma bind_Ok_inv {A B} (m : result A) (f : A → result B) y :
  m ≫= f = Ok y → ∃ x, m = Ok x ∧ f x = Ok y.
Proof. destruct m as [x|e]; [eauto|done]. Qed.

Lemma add_wf a b c : wf a → wf b → __add__ a b = Ok c → wf c.
Proof.
  intros Ha Hb. rewrite add_spec by done. case_decide; [done|].
  by apply composed_wf.
Qed.

Lemma foldlM_add_wf (gen : list (result Cycler)) acc c :
  Forall (λ g, ∀ x, g = Ok x → wf x) gen → wf acc →
  foldlM (λ acc y, b ← y; __add__ acc b) acc gen = Ok c → wf c.
Proof.
  intros Hgen. revert acc. induction Hgen as [|g gen Hg _ IH]; intros acc Hacc; simpl.
  - by intros [= <-].
  - intros (acc' & (b & -> & Hadd)%bind_Ok_inv & Hfold)%bind_Ok_inv.
    eapply IH; [|done]. eapply add_wf; [done| |done]. by apply Hg.
Qed.

Lemma reduce_add_wf (gen : list (result Cycler)) c :
  Forall (λ g, ∀ x, g = Ok x → wf x) gen → reduce __add__ gen = Ok c → wf c.
Proof.
  destruct gen as [|g gen]; [done|]. intros [Hg Hgen]%Forall_cons_1. simpl.
  intros (a & -> & Hfold)%bind_Ok_inv. eapply foldlM_add_wf; [done| |done].
  by apply Hg.
Qed.

Lemma reduce_fmap_wf {A} (f : A → result Cycler) (l : list A) c :
  (∀ y x, f y = Ok x → wf x) → reduce __add__ (f <$> l) = Ok c → wf c.
Proof.
  intros Hf. apply reduce_add_wf, Forall_fmap, Forall_forall.
  intros y _ x. apply Hf.
Qed.

Section Reachable.
Context `{IterOrder}.

Lemma cycler_wf label itr c : _cycler label itr = Ok c → wf c.
Proof.
  destruct itr as [vs|a]; simpl.
  - intros [= <-]. apply wf_from_iter.
  - case_decide; [done|].
    intros (lab & _ & (vs & _ & [= <-])%bind_Ok_inv)%bind_Ok_inv.
    apply wf_from_iter.
Qed.

Lemma cycler_copy_wf a c : wf a → cycler_copy a = Ok c → wf c.
Proof.
  intros Ha. unfold cycler_copy. rewrite init_copy_spec by done.
  case_decide; [done|]. by intros [= <-].
Qed.

Lemma cycler_kwargs_wf kwargs c : cycler_kwargs kwargs = Ok c → wf c.
Proof.
  destruct kwargs as [|kv kwargs]; [done|]. unfold cycler_kwargs.
  apply reduce_fmap_wf. intros y x. apply cycler_wf.
Qed.

Lemma init_comp_wf a b op c :
  wf a → wf b → __init__ a (Some (b, op)) = Ok c → wf c.
Proof. intros Ha Hb. rewrite init_comp_spec by done. by apply composed_wf. Qed.

Lemma mul_wf a f c :
  wf a → (∀ b, f = ByCycler b → wf b) → __mul__ a f = Ok c → wf c.
Proof.
  intros Ha Hf. destruct f as [b|n]; simpl.
  - apply init_comp_wf; [done|]. by apply Hf.
  - intros (trans & _ & Hred)%bind_Ok_inv. revert Hred.
    apply reduce_fmap_wf. intros y x (v & _ & Hx)%bind_Ok_inv.
    by apply (cycler_wf y.1 (Values v)).
Qed.

Lemma iadd_wf a b c : wf a → wf b → __iadd__ a b = Ok c → wf c.
Proof. intros Ha Hb. rewrite iadd_spec by done. by apply composed_wf. Qed.

Lemma imul_wf a b c : wf a → wf b → __imul__ a b = Ok c → wf c.
Proof. intros Ha Hb. rewrite imul_spec by done. by apply composed_wf. Qed.

Lemma getitem_wf a key c : __getitem__ a key = Ok c → wf c.
Proof.
  destruct key as [s|i]; [|done]. simpl.
  intros (trans & _ & Hred)%bind_Ok_inv. revert Hred.
  apply reduce_fmap_wf. intros y x (v & _ & Hc)%bind_Ok_inv.
  exact (cycler_wf y.1 (Values v) x Hc).
Qed.

Lemma simplify_wf a c : simplify a = Ok c → wf c.
Proof.
  unfold simplify. intros (trans & _ & Hred)%bind_Ok_inv. revert Hred.
  apply reduce_fmap_wf. intros y x. apply (cycler_wf y.1 (Values _)).
Qed.

Lemma concat_wf a b c : concat a b = Ok c → wf c.
Proof.
  unfold concat. case_decide; [done|].
  intros (l & _ & (r & _ & Hred)%bind_Ok_inv)%bind_Ok_inv. revert Hred.
  apply reduce_fmap_wf.
  intros y x (v & _ & (w & _ & Hc)%bind_Ok_inv)%bind_Ok_inv.
  exact (cycler_wf y (Values (v ++ w)) x Hc).
Qed.

(** The invariant holds of every Cycler a client can obtain. *)
Lemma reachable_wf c : reachable c → wf c.
Proof.
  induction 1 as
    [label itr c _ _ Hc|a c _ IH Hc|kwargs c _ _ Hc|a b op c _ IHa _ IHb Hc
    |a b c _ IHa _ IHb Hc|a f c _ IHa _ IHf Hc|a b c _ IHa _ IHb Hc
    |a b c _ IHa _ IHb Hc|old new a c _ IH Hc|a key c _ _ Hc|a c _ _ Hc
    |a b c _ _ _ _ Hc].
  - by eapply cycler_wf.
  - exact (cycler_copy_wf a c IH Hc).
  - by eapply cycler_kwargs_wf.
  - exact (init_comp_wf a b op c IHa IHb Hc).
  - exact (add_wf a b c IHa IHb Hc).
  - exact (mul_wf a f c IHa IHf Hc).
  - exact (iadd_wf a b c IHa IHb Hc).
  - exact (imul_wf a b c IHa IHb Hc).
  - exact (change_key_wf old new a c IH Hc).
  - by eapply getitem_wf.
  - by eapply simplify_wf.
  - by eapply concat_wf.
Qed.

End Reachable.

(** ** The documented examples, run *)

(** A base Cycler built from a name and values: its length, keys and
    records. *)
Lemma from_iter_spec label vs :
  __len__ (_from_iter label vs) = length vs ∧
  keys (_from_iter label vs) = {[ label ]} ∧
  __iter__ (_from_iter label vs) = (λ v, {[ label := v ]}) <$> vs.
Proof. split_and!; [apply length_fmap|done..]. Qed.

Example add_color_linestyle :
  __add__ ex_color ex_linestyle = Ok ex_styles ∧
  __iter__ ex_styles =
    [ {[ "color" := VStr "r"; "linestyle" := VStr "-" ]};
      {[ "color" := VStr "g"; "linestyle" := VStr "--" ]};
      {[ "color" := VStr "b"; "linestyle" := VStr "-." ]} ].
Proof. split; compute_done. Qed.

Example mul_color_linestyle :
  ∃ R, __mul__ ex_color (ByCycler ex_linestyle) = Ok R ∧
       __len__ R = 9 ∧
       take 4 (__iter__ R) =
         [ {[ "color" := VStr "r"; "linestyle" := VStr "-" ]};
           {[ "color" := VStr "r"; "linestyle" := VStr "--" ]};
           {[ "color" := VStr "r"; "linestyle" := VStr "-." ]};
           {[ "color" := VStr "g"; "linestyle" := VStr "-" ]} ].
Proof. eexists. split_and!; [done|done|compute_done]. Qed.

Example add_overlapping :
  __add__ ex_a12 (_from_iter "a" [VInt 3; VInt 4]) = Raise OverlappingKeys.
Proof. compute_done. Qed.

Example concat_num_let :
  ∃ R, concat (_from_iter "a" [VInt 0; VInt 1; VInt 2])
              (_from_iter "a" [VStr "a"; VStr "b"; VStr "c"]) = Ok R ∧
       __eq__ R (_from_iter "a" [VInt 0; VInt 1; VInt 2;
                                 VStr "a"; VStr "b"; VStr "c"]) = true.
Proof. eexists. split; [compute_done|compute_done]. Qed.

Example kwargs_color_lw :
  ∃ R, cycler_kwargs [("color", Values [VStr "r"; VStr "g"]);
                      ("lw", Values [VInt 1; VInt 2])] = Ok R ∧
       __iter__ R = [ {[ "color" := VStr "r"; "lw" := VInt 1 ]};
                      {[ "color" := VStr "g"; "lw" := VInt 2 ]} ].
Proof. eexists. split; [compute_done|compute_done]. Qed.

Example getitem_reversed :
  ∃ R, __getitem__ ex_styles (BySlice (Slice None None (Some (-1)%Z))) = Ok R ∧
       __iter__ R = reverse (__iter__ ex_styles).
Proof. eexists. split; [compute_done|compute_done]. Qed.

(** ** The claims *)










(** [+] checks the lengths before anything else, on any two Cyclers. *)
Lemma add_unequal_length A B :
  __len__ A ≠ __len__ B →
  __add__ A B = Raise (UnequalLength (__len__ A) (__len__ B)).
Proof. intros Hlen. unfold __add__. by rewrite decide_True. Qed.

(** [+=] does not: on well-formed, non-empty operands with disjoint keys
    it builds the composite whatever the lengths are. *)
Lemma iadd_any_length A B :
  wf A → wf B → keys A ## keys B → __len__ A ≠ 0 → __len__ B ≠ 0 →
  __iadd__ A B = Ok (Comp (keys A ∪ keys B) A B Zip).
Proof. intros. by rewrite iadd_spec, composed_disjoint. Qed.

(** C4.  The in-place [+=] has no length check: on Cyclers of lengths 2
    and 1, where [+] raises the length-mismatch error, [+=] succeeds and
    leaves a composite of length 1 that drops the second record. *)
Theorem C4_iadd_unequal_lengths :
  __len__ ex_a12 ≠ __len__ ex_b3 ∧
  __add__ ex_a12 ex_b3 = Raise (UnequalLength 2 1) ∧
  ∃ R, __iadd__ ex_a12 ex_b3 = Ok R ∧
       __len__ R = 1 ∧
       __iter__ R = [ {[ "a" := VInt 1; "b" := VInt 3 ]} ].
Proof.
  split_and!; [done|done|].
  eexists. split; [done|]. split; [done|]. compute_done.
Qed.

(** C5.  For every well-formed Cycler [C] (so for every reachable one),
    [simplify(C)] succeeds and is equal to [C]: [__eq__] answers [True],
    the lengths are equal, the key sets identical, and the records the
    same in iteration order. *)
Theorem C5_simplify_equal `{IterOrder} C :
  wf C →
  ∃ S, simplify C = Ok S ∧
       __eq__ S C = true ∧
       __len__ S = __len__ C ∧ keys S = keys C ∧ __iter__ S = __iter__ C.
Proof.
  intros HC. destruct (simplify_spec C HC) as (S & HS & _ & Hk & Hi).
  exists S. split_and!; [done|by apply eq_of_iter|by rewrite !len_iter, Hi|done..].
Qed.

Lemma C5_simplify_equal_witness :
  ∃ S, simplify ex_grid = Ok S ∧
       __eq__ S ex_grid = true ∧
       __len__ S = __len__ ex_grid ∧ keys S = keys ex_grid ∧
       __iter__ S = __iter__ ex_grid.
Proof. apply (C5_simplify_equal ex_grid); compute_done. Defined.

(** C6.  For well-formed Cyclers [A] and [B]: when their key sets are
    equal, [concat(A, B)] succeeds, has length [len(A) + len(B)], and for
    every key its column is [A]'s column followed by [B]'s; when the key
    sets differ, [concat] raises the key-mismatch error, which carries the
    intersection and the symmetric difference of the two key sets. *)
Theorem C6_concat `{IterOrder} A B :
  wf A → wf B →
  (keys A = keys B →
   ∃ R cA cB cR,
     concat A B = Ok R ∧
     __len__ R = __len__ A + __len__ B ∧
     by_key A = Ok cA ∧ by_key B = Ok cB ∧ by_key R = Ok cR ∧
     ∀ k, k ∈ keys A →
       ∃ la lb, columns_getitem cA k = Ok la ∧
                columns_getitem cB k = Ok lb ∧
                columns_getitem cR k = Ok (la ++ lb)) ∧
  (keys A ≠ keys B →
   concat A B =
   Raise (KeysDoNotMatch (keys A ∩ keys B)
            ((keys A ∖ keys B) ∪ (keys B ∖ keys A)))).
Proof.
  intros HA HB. split.
  - intros Hk. destruct (concat_spec A B HA HB Hk) as (R & HR & HwR & HkR & HiR).
    exists R. do 3 eexists.
    split_and!; [done| |by apply by_key_spec..|].
    + by rewrite !len_iter, HiR, length_app.
    + intros k Hk'. exists (column k (__iter__ A)), (column k (__iter__ B)).
      rewrite HkR, <-Hk, HiR, <-column_app.
      split_and!.
      * apply (columns_getitem_fmap (λ k, column k (__iter__ A))).
        by apply elem_of_set_order.
      * apply (columns_getitem_fmap (λ k, column k (__iter__ B))).
        by apply elem_of_set_order.
      * apply (columns_getitem_fmap (λ k, column k (__iter__ A ++ __iter__ B))).
        by apply elem_of_set_order.
  - intros Hk. unfold concat. by rewrite decide_True.
Qed.

Lemma C6_concat_witness :
  (∃ R cA cB cR,
     concat ex_color ex_color = Ok R ∧
     __len__ R = __len__ ex_color + __len__ ex_color ∧
     by_key ex_color = Ok cA ∧ by_key ex_color = Ok cB ∧ by_key R = Ok cR ∧
     ∀ k, k ∈ keys ex_color →
       ∃ la lb, columns_getitem cA k = Ok la ∧
                columns_getitem cB k = Ok lb ∧
                columns_getitem cR k = Ok (la ++ lb)) ∧
  concat ex_color ex_linestyle =
  Raise (KeysDoNotMatch (keys ex_color ∩ keys ex_linestyle)
           ((keys ex_color ∖ keys ex_linestyle) ∪ (keys ex_linestyle ∖ keys ex_color))).
Proof.
  assert (wf ex_color) as Hcolor by compute_done.
  assert (wf ex_linestyle) as Hline by compute_done.
  split.
  - apply (proj1 (C6_concat ex_color ex_color Hcolor Hcolor)). reflexivity.
  - apply (proj2 (C6_concat ex_color ex_linestyle Hcolor Hline)). compute_done.
Defined.

(** C7 (as amended).  For a well-formed Cycler [C] and an integer [n]
    with [0 ≤ n ≤ sys.maxsize], when [C] and its [n] repetitions are no
    longer than a list can be: if [n ≥ 1] or [C] has a single key,
    [C * n] succeeds and the column of every key is [C]'s column
    repeated [n] times; [C * 1] is equal to [C]; and [C * 0] has length
    0 when [C] has a single key. *)
Theorem C7_repeat `{IterOrder} C (n : Z) :
  wf C → (0 ≤ n ≤ PY_SSIZE_T_MAX)%Z →
  (Z.of_nat (__len__ C) ≤ MAX_LIST_SIZE)%Z →
  (Z.of_nat (__len__ C) * n ≤ MAX_LIST_SIZE)%Z →
  ((0 < n)%Z ∨ size (keys C) = 1 →
   ∃ R cC cR,
     __mul__ C (ByInt n) = Ok R ∧ by_key C = Ok cC ∧ by_key R = Ok cR ∧
     ∀ k, k ∈ keys C →
       ∃ col, columns_getitem cC k = Ok col ∧
              columns_getitem cR k = Ok (list_mul col n)) ∧
  (∃ R, __mul__ C (ByInt 1) = Ok R ∧ __eq__ R C = true) ∧
  (size (keys C) = 1 → ∃ R, __mul__ C (ByInt 0) = Ok R ∧ __len__ R = 0).
Proof.
  intros HC Hn Hlen Hfits.
  pose proof MAX_LIST_SIZE_pos. pose proof MAX_LIST_SIZE_le. split_and!.
  - intros Hcase.
    destruct (mul_int_spec C n HC) as (R & HR & HwR & HkR & HiR);
      [lia|done|tauto|].
    exists R. do 2 eexists. split_and!; [done|by apply by_key_spec..|].
    intros k Hk. exists (column k (__iter__ C)).
    rewrite HkR, HiR.
    replace (list_mul (column k (__iter__ C)) n)
      with (column k (list_mul (__iter__ C) n)) by (symmetry; apply list_mul_fmap).
    split.
    + apply (columns_getitem_fmap (λ k, column k (__iter__ C))).
      by apply elem_of_set_order.
    + apply (columns_getitem_fmap (λ k, column k (list_mul (__iter__ C) n))).
      by apply elem_of_set_order.
  - destruct (mul_int_spec C 1 HC) as (R & HR & HwR & HkR & HiR);
      [lia|lia|right; lia|].
    exists R. split; [done|]. apply eq_of_iter; [done|].
    by rewrite HiR, list_mul_1.
  - intros Hsz.
    destruct (mul_int_spec C 0 HC) as (R & HR & HwR & HkR & HiR);
      [lia|lia|by left|].
    exists R. split; [done|]. by rewrite len_iter, HiR.
Qed.

Lemma C7_repeat_witness :
  (∃ R cC cR,
     __mul__ ex_grid (ByInt 2) = Ok R ∧ by_key ex_grid = Ok cC ∧ by_key R = Ok cR ∧
     ∀ k, k ∈ keys ex_grid →
       ∃ col, columns_getitem cC k = Ok col ∧
              columns_getitem cR k = Ok (list_mul col 2)) ∧
  (∃ R, __mul__ ex_grid (ByInt 1) = Ok R ∧ __eq__ R ex_grid = true) ∧
  (∃ R, __mul__ ex_color (ByInt 0) = Ok R ∧ __len__ R = 0).
Proof.
  assert (wf ex_grid) as Hgrid by compute_done.
  assert (wf ex_color) as Hcolor by compute_done.
  destruct (C7_repeat ex_grid 2 Hgrid) as (H1 & H2 & _); [compute_done..|].
  destruct (C7_repeat ex_color 0 Hcolor) as (_ & _ & H3); [compute_done..|].
  split_and!; [apply H1; left; lia|exact H2|apply H3; compute_done].
Defined.

(** C7 as stated fails for [n = 0] on a Cycler with two keys: rebuilding
    from the emptied columns adds two empty base Cyclers, and that [+]
    raises [StopIteration]; there is no result of length 0.  It also
    fails for [n = 2^63], which is no index: repeating the first column
    raises [OverflowError], even for a Cycler without records. *)
Lemma C7_repeat_counterexample :
  reachable ex_styles ∧
  __mul__ ex_styles (ByInt 0) = Raise StopIteration ∧
  (¬ ∃ R, __mul__ ex_styles (ByInt 0) = Ok R ∧ __len__ R = 0) ∧
  reachable ex_empty_a ∧
  __mul__ ex_empty_a (ByInt (2 ^ 63)) = Raise OverflowError ∧
  ¬ ∃ R cR, __mul__ ex_empty_a (ByInt (2 ^ 63)) = Ok R ∧ by_key R = Ok cR.
Proof.
  assert (__mul__ ex_empty_a (ByInt (2 ^ 63)) = Raise OverflowError) as Ho
    by compute_done.
  split_and!.
  - apply (reach_add ex_color ex_linestyle).
    + by apply (reach_cycler "color" (Values [VStr "r"; VStr "g"; VStr "b"])).
    + by apply (reach_cycler "linestyle" (Values [VStr "-"; VStr "--"; VStr "-."])).
    + compute_done.
  - compute_done.
  - assert (__mul__ ex_styles (ByInt 0) = Raise StopIteration) as Hm by compute_done.
    intros (R & HR & _). congruence.
  - by apply (reach_cycler "a" (Values [])).
  - done.
  - intros (R & cR & HR & _). congruence.
Qed.

Lemma lookup_rename old new (r : record) v :
  old ≠ new → r !! old = Some v →
  rename old new r !! new = Some v ∧
  rename old new r !! old = None ∧
  ∀ k, k ≠ old → k ≠ new → rename old new r !! k = r !! k.
Proof.
  intros Hne Hv. unfold rename. rewrite Hv. split_and!.
  - apply lookup_insert_eq.
  - rewrite lookup_insert_ne by done. apply lookup_delete_eq.
  - intros k Ho Hn. by rewrite lookup_insert_ne, lookup_delete_ne.
Qed.

(** C8.  [change_key(old, new)] on a well-formed Cycler [C]:
    - does nothing when [old = new], whether or not [old] is a key;
    - raises the key-already-exists error when [old ≠ new] and [new] is a
      key;
    - raises the key-not-found error when [old ≠ new] and neither [new]
      nor [old] is a key;
    - otherwise succeeds: [old] is replaced by [new] in the key set, the
      iteration has as many records as before, and the [i]-th record
      holds under [new] the value the [i]-th record held under [old], no
      longer has [old], and is unchanged under every other key. *)
Theorem C8_change_key C old new :
  wf C →
  (old = new → change_key old new C = Ok C) ∧
  (old ≠ new → new ∈ keys C →
   change_key old new C = Raise (KeyAlreadyExists old new)) ∧
  (old ≠ new → new ∉ keys C → old ∉ keys C →
   change_key old new C = Raise (KeyNotFound old new)) ∧
  (old ≠ new → new ∉ keys C → old ∈ keys C →
   ∃ C', change_key old new C = Ok C' ∧
         keys C' = keys C ∖ {[ old ]} ∪ {[ new ]} ∧
         length (__iter__ C') = length (__iter__ C) ∧
         ∀ i r, __iter__ C !! i = Some r →
           ∃ r' v, __iter__ C' !! i = Some r' ∧
                   r !! old = Some v ∧ r' !! new = Some v ∧
                   r' !! old = None ∧
                   ∀ k, k ≠ old → k ≠ new → r' !! k = r !! k).
Proof.
  intros HC. split_and!.
  - intros ->. apply change_key_same.
  - apply change_key_exists.
  - apply change_key_missing.
  - intros Hne Hnew Hold.
    destruct (change_key_spec old new C) as (C' & HC' & _ & Hk & Hi); [done..|].
    exists C'. split_and!; [done|done|by rewrite Hi, length_fmap|].
    intros i r Hr. pose proof (wf_dom C HC) as Hdom.
    rewrite Forall_forall in Hdom.
    assert (old ∈ dom r) as [v Hv]%elem_of_dom.
    { rewrite (Hdom r); [done|]. by eapply list_elem_of_lookup_2. }
    exists (rename old new r), v. rewrite Hi, list_lookup_fmap, Hr.
    destruct (lookup_rename old new r v Hne Hv) as (? & ? & ?). done.
Qed.

Lemma C8_change_key_witness :
  change_key "color" "color" ex_grid = Ok ex_grid ∧
  change_key "color" "lw" ex_grid = Raise (KeyAlreadyExists "color" "lw") ∧
  change_key "c" "colour" ex_grid = Raise (KeyNotFound "c" "colour") ∧
  ∃ C', change_key "color" "c" ex_grid = Ok C' ∧
        keys C' = keys ex_grid ∖ {[ "color" ]} ∪ {[ "c" ]} ∧
        length (__iter__ C') = length (__iter__ ex_grid) ∧
        ∀ i r, __iter__ ex_grid !! i = Some r →
          ∃ r' v, __iter__ C' !! i = Some r' ∧
                  r !! "color" = Some v ∧ r' !! "c" = Some v ∧
                  r' !! "color" = None ∧
                  ∀ k, k ≠ "color" → k ≠ "c" → r' !! k = r !! k.
Proof.
  assert (wf ex_grid) as Hgrid by compute_done.
  split_and!.
  - apply (proj1 (C8_change_key ex_grid "color" "color" Hgrid)). reflexivity.
  - apply (proj1 (proj2 (C8_change_key ex_grid "color" "lw" Hgrid))); compute_done.
  - apply (proj1 (proj2 (proj2 (C8_change_key ex_grid "c" "colour" Hgrid))));
      compute_done.
  - apply (proj2 (proj2 (proj2 (C8_change_key ex_grid "color" "c" Hgrid))));
      compute_done.
Defined.

(** C9.  Every record yielded by iterating a reachable Cycler, leaf or
    composite, has exactly the key set [keys] reports.  Reachability
    covers every constructor and every operation that returns a Cycler or
    mutates its receiver, so the invariant is established at construction
    and kept by each of them. *)
Theorem C9_records_share_keys `{IterOrder} C :
  reachable C → Forall (λ r : record, dom r = keys C) (__iter__ C).
Proof. intros HC. by apply wf_dom, reachable_wf. Qed.

Lemma C9_records_share_keys_witness :
  Forall (λ r : record, dom r = keys ex_grid) (__iter__ ex_grid).
Proof.
  apply (C9_records_share_keys ex_grid).
  apply (reach_mul ex_color (ByCycler ex_width)).
  - by apply (reach_cycler "color" (Values [VStr "r"; VStr "g"; VStr "b"])).
  - intros b [= <-]. by apply (reach_cycler "lw" (Values [VInt 1; VInt 2])).
  - compute_done.
Defined.

(** No composite a client can obtain has a child without records. *)
Lemma reachable_children_nonempty `{IterOrder} ks l r op :
  reachable (Comp ks l r op) → __len__ l ≠ 0 ∧ __len__ r ≠ 0.
Proof.
  intros (_ & _ & Hl & Hr & _)%reachable_wf. by rewrite <-!iter_nil_len.
Qed.

(** C10.  A composite over a child that yields no record cannot be
    built.  For well-formed [A] and [B] one of which has length 0, [*],
    [+=], [*=] and the constructor raise [StopIteration] (the peek of
    [_process_keys] fails), and [+] raises it too unless it has raised
    the length-mismatch error first; in particular all of them raise
    [StopIteration] when both lengths are 0. *)
Theorem C10_empty_child `{IterOrder} A B :
  wf A → wf B → __len__ A = 0 ∨ __len__ B = 0 →
  __mul__ A (ByCycler B) = Raise StopIteration ∧
  __iadd__ A B = Raise StopIteration ∧
  __imul__ A B = Raise StopIteration ∧
  (∀ op, __init__ A (Some (B, op)) = Raise StopIteration) ∧
  is_Raise (__add__ A B) ∧
  (__len__ A = __len__ B → __add__ A B = Raise StopIteration).
Proof.
  intros HA HB Hlen. unfold __mul__.
  rewrite iadd_spec, imul_spec, add_spec by done.
  split_and!; try (by rewrite ?init_comp_spec, composed_empty by done).
  - intros op. by rewrite init_comp_spec, composed_empty by done.
  - case_decide; [done|]. by rewrite composed_empty.
  - intros Heq. rewrite decide_False by (by intros []). by rewrite composed_empty.
Qed.

Lemma C10_empty_child_witness :
  __mul__ ex_empty_a (ByCycler ex_empty_b) = Raise StopIteration ∧
  __iadd__ ex_empty_a ex_empty_b = Raise StopIteration ∧
  __imul__ ex_empty_a ex_empty_b = Raise StopIteration ∧
  (∀ op, __init__ ex_empty_a (Some (ex_empty_b, op)) = Raise StopIteration) ∧
  is_Raise (__add__ ex_empty_a ex_empty_b) ∧
  (__len__ ex_empty_a = __len__ ex_empty_b →
   __add__ ex_empty_a ex_empty_b = Raise StopIteration).
Proof.
  apply (C10_empty_child ex_empty_a ex_empty_b); [compute_done..|].
  left. reflexivity.
Defined.

(** * Further properties of the module *)

(** ** Length and equality *)


Lemma forallb_zip_eq (l k : list record) :
  length l = length k →
  forallb (λ '(a, b), bool_decide (a = b)) (zip l k) = true → l = k.
Proof.
  revert k. induction l as [|x l IH]; intros [|y k]; simpl; try done.
  intros [= Hlen] [Hxy Hlk]%andb_prop. apply bool_decide_eq_true_1 in Hxy.
  f_equal; [done|by apply IH].
Qed.


(** ** Copying *)

(** [cycler(c)], the copy constructor: on a non-empty Cycler it returns a
    Cycler equal to [c]; on an empty one the peek at the first record
    raises [StopIteration]. *)
Theorem cycler_copy_equal C :
  wf C →
  (__len__ C ≠ 0 →
   ∃ R, cycler_copy C = Ok R ∧ __eq__ R C = true ∧ __len__ R = __len__ C) ∧
  (__len__ C = 0 → cycler_copy C = Raise StopIteration).
Proof.
  intros HC. unfold cycler_copy. rewrite init_copy_spec by done.
  rewrite <-!iter_nil_len. split; intros Hlen.
  - rewrite decide_False by done. eexists. split; [done|].
    split; [by apply eq_of_iter|done].
  - by rewrite decide_True.
Qed.

Lemma cycler_copy_equal_witness :
  (∃ R, cycler_copy ex_grid = Ok R ∧ __eq__ R ex_grid = true ∧
        __len__ R = __len__ ex_grid) ∧
  cycler_copy ex_empty_a = Raise StopIteration.
Proof.
  assert (wf ex_grid) as Hgrid by compute_done.
  assert (wf ex_empty_a) as Hempty by compute_done.
  split.
  - apply (proj1 (cycler_copy_equal ex_grid Hgrid)). compute_done.
  - apply (proj2 (cycler_copy_equal ex_empty_a Hempty)). reflexivity.
Defined.

(** ** The in-place operators against the pure ones *)



(** ** The algebra of [+] and [*] *)





Lemma composed_zip_len A B R :
  composed A B Zip = Ok R → __len__ A = __len__ B → __len__ R = __len__ A.
Proof. intros (_ & _ & _ & ->)%composed_Ok Hlen. simpl. lia. Qed.






(** ** Building from a Cycler, and renaming *)

Lemma single_record k (d : record) : dom d = {[ k ]} → {[ k := d !!! k ]} = d.
Proof.
  intros Hd. rewrite <-(restrict_singleton k d) by set_solver.
  by apply restrict_all.
Qed.

Lemma rename_single_record old new (d : record) :
  dom d = {[ old ]} → rename old new d = {[ new := d !!! old ]}.
Proof.
  intros Hd. pose proof (rename_single old new d Hd) as Hr.
  rewrite getitem_total in Hr by set_solver. simpl in Hr. congruence.
Qed.

Section FromCycler.
Context `{IterOrder}.

Lemma set_pop_singleton k : set_pop {[ k ]} = Ok k.
Proof.
  unfold set_pop. pose proof (set_order_perm {[ k ]}) as Hp.
  rewrite elements_singleton in Hp. apply Permutation_singleton_r in Hp.
  by rewrite Hp.
Qed.

Lemma cycler_single label C k :
  wf C → keys C = {[ k ]} →
  _cycler label (OfCycler C) = Ok (_from_iter label (column k (__iter__ C))).
Proof.
  intros HC Hk. unfold _cycler. rewrite Hk, size_singleton.
  rewrite decide_False by (by intros []).
  rewrite set_pop_singleton, bind_Ok.
  rewrite (mapM_Ok _ (λ d : record, d !!! k)); [done|].
  apply wf_dom in HC. eapply Forall_impl; [exact HC|]. intros d Hd. simpl in *.
  apply getitem_total. rewrite Hd, Hk. set_solver.
Qed.

End FromCycler.

(** [cycler(label, c)] for a Cycler [c]: when [c] does not have exactly
    one key it raises the multi-property error; when [c] has the single
    key [k] it returns the base Cycler of key [label] holding the values
    [c] yields under [k], in order. *)
Theorem cycler_of_cycler `{IterOrder} label C :
  (size (keys C) ≠ 1 → cycler label (OfCycler C) = Raise MultiProperty) ∧
  (wf C → ∀ k, keys C = {[ k ]} →
   ∃ R, cycler label (OfCycler C) = Ok R ∧
        keys R = {[ label ]} ∧ __len__ R = __len__ C ∧
        __iter__ R = (λ d : record, {[ label := d !!! k ]}) <$> __iter__ C).
Proof.
  unfold cycler. split.
  - intros Hsz. unfold _cycler. by rewrite decide_True.
  - intros HC k Hk. rewrite (cycler_single label C k) by done.
    eexists. split; [done|]. split; [done|]. split.
    + rewrite (len_iter C). simpl. unfold column. by rewrite !length_fmap.
    + simpl. unfold column. by rewrite <-list_fmap_compose.
Qed.

Lemma cycler_of_cycler_witness :
  cycler "x" (OfCycler ex_grid) = Raise MultiProperty ∧
  ∃ R, cycler "c" (OfCycler ex_color) = Ok R ∧
       keys R = {[ "c" ]} ∧ __len__ R = __len__ ex_color ∧
       __iter__ R = (λ d : record, {[ "c" := d !!! "color" ]}) <$> __iter__ ex_color.
Proof.
  split.
  - apply (proj1 (cycler_of_cycler "x" ex_grid)). compute_done.
  - apply (proj2 (cycler_of_cycler "c" ex_color)); compute_done.
Defined.

(** Renaming by copy and renaming in place agree: for a Cycler [c] with
    the single key [k], [cycler(label, c)] is equal to [c] after
    [c.change_key(k, label)]. *)
Theorem cycler_rename_is_change_key `{IterOrder} label C k :
  wf C → keys C = {[ k ]} →
  ∃ R R', cycler label (OfCycler C) = Ok R ∧
          change_key k label C = Ok R' ∧
          __eq__ R R' = true.
Proof.
  intros HC Hk. unfold cycler. rewrite (cycler_single label C k) by done.
  pose proof (wf_dom C HC) as Hdom. rewrite Hk in Hdom.
  destruct (decide (k = label)) as [<-|Hne].
  - exists (leaf (__iter__ C) k), C. rewrite change_key_same.
    split_and!; [done..|]. apply eq_of_iter; [done|].
    rewrite iter_leaf. transitivity (id <$> __iter__ C); [|apply list_fmap_id].
    apply Forall_fmap_ext. eapply Forall_impl; [exact Hdom|].
    intros d Hd. by apply single_record.
  - destruct (change_key_spec k label C) as (R' & HR' & _ & HkR' & HiR');
      [done|done|rewrite Hk; set_solver|rewrite Hk; set_solver|].
    exists (_from_iter label (column k (__iter__ C))), R'. split_and!; [done..|].
    apply eq_of_iter.
    + rewrite HkR', Hk. simpl. set_solver.
    + rewrite HiR'. simpl. unfold column. rewrite <-list_fmap_compose.
      apply Forall_fmap_ext. eapply Forall_impl; [exact Hdom|].
      intros d Hd. simpl in *. by rewrite rename_single_record.
Qed.

Lemma cycler_rename_is_change_key_witness :
  ∃ R R', cycler "c" (OfCycler ex_color) = Ok R ∧
          change_key "color" "c" ex_color = Ok R' ∧
          __eq__ R R' = true.
Proof. apply (cycler_rename_is_change_key "c" ex_color "color"); compute_done. Defined.

Lemma rename_rename old new (r : record) :
  old ≠ new → old ∈ dom r → new ∉ dom r →
  rename new old (rename old new r) = r.
Proof.
  intros Hne [v Hv]%elem_of_dom Hn%not_elem_of_dom.
  destruct (lookup_rename old new r v Hne Hv) as (Hnew & Hold & Hother).
  apply map_eq. intros k. unfold rename at 1. rewrite Hnew.
  destruct (decide (k = old)) as [->|Hko]; [by rewrite lookup_insert_eq|].
  rewrite lookup_insert_ne by done.
  destruct (decide (k = new)) as [->|Hkn]; [by rewrite lookup_delete_eq|].
  rewrite lookup_delete_ne by done. by apply Hother.
Qed.

Lemma keys_back (K : gset string) old new :
  old ∈ K → new ∉ K → (K ∖ {[ old ]} ∪ {[ new ]}) ∖ {[ new ]} ∪ {[ old ]} = K.
Proof.
  intros Ho Hn. apply set_eq. intros x.
  destruct (decide (x = old)) as [->|?]; [set_solver|].
  destruct (decide (x = new)) as [->|?]; set_solver.
Qed.

(** Renaming back undoes a renaming. *)
Lemma change_key_back old new c :
  wf c → old ≠ new → new ∉ keys c → old ∈ keys c →
  ∃ c', change_key old new c = Ok c' ∧
        keys c' = keys c ∖ {[ old ]} ∪ {[ new ]} ∧
        change_key new old c' = Ok c.
Proof.
  intros Hwf Hne. induction c as [ks l|ks c IH|ks l IHl r IHr op];
    intros Hnew Hold; rewrite change_key_unfold by done; cbn [keys] in *.
  - destruct Hwf as [Hsz Hdom].
    assert (ks = {[ old ]}) as ->.
    { apply size_1_elem_of in Hsz as [k Hk]. set_solver. }
    rewrite (mapM_Ok _ (rename old new)), bind_Ok.
    2:{ eapply Forall_impl; [exact Hdom|]. intros d Hd. by apply rename_single. }
    eexists. split; [done|]. split; [done|].
    rewrite change_key_unfold by (done || (simpl; set_solver)). cbn [keys].
    rewrite (mapM_Ok _ (rename new old)), bind_Ok.
    2:{ apply Forall_fmap. eapply Forall_impl; [exact Hdom|]. intros d Hd. simpl.
        apply rename_single. rewrite dom_rename, Hd; set_solver. }
    f_equal. f_equal; [apply keys_back; set_solver|].
    rewrite <-list_fmap_compose. transitivity (id <$> l); [|apply list_fmap_id].
    apply Forall_fmap_ext. eapply Forall_impl; [exact Hdom|]. intros d Hd. simpl.
    apply rename_rename; [done|rewrite Hd; set_solver..].
  - destruct Hwf as (Hwf & Hn & ->).
    destruct (IH Hwf Hnew Hold) as (c' & -> & Hk' & Hback). rewrite bind_Ok.
    eexists. split; [done|]. split; [done|].
    rewrite change_key_unfold by (done || (simpl; set_solver)). cbn [keys].
    rewrite Hback, bind_Ok. f_equal. f_equal. by apply keys_back.
  - destruct Hwf as (Hwl & Hwr & Hnl & Hnr & Hdisj & ->).
    apply not_elem_of_union in Hnew as [Hnewl Hnewr]. case_decide as Hor.
    + destruct (IHr Hwr Hnewr Hor) as (r' & -> & Hk' & Hback). rewrite bind_Ok.
      eexists. split; [done|]. split; [done|].
      rewrite change_key_unfold by (done || (simpl; set_solver)). cbn [keys].
      rewrite decide_True by (rewrite Hk'; set_solver).
      rewrite Hback, bind_Ok. f_equal. f_equal. apply keys_back; set_solver.
    + assert (old ∈ keys l) as Hol by set_solver.
      destruct (IHl Hwl Hnewl Hol) as (l' & -> & Hk' & Hback). rewrite bind_Ok.
      eexists. split; [done|]. split; [done|].
      rewrite change_key_unfold by (done || (simpl; set_solver)). cbn [keys].
      rewrite decide_False by done.
      rewrite Hback, bind_Ok. f_equal. f_equal. apply keys_back; set_solver.
Qed.

(** [change_key] round trip: after [c.change_key(old, new)] succeeds on a
    key [old] of [c] and a fresh name [new], [c.change_key(new, old)]
    succeeds and restores [c]: the same tree, the same key sets at every
    node, the same records. *)
Theorem change_key_round_trip old new C :
  wf C → old ≠ new → new ∉ keys C → old ∈ keys C →
  ∃ C', change_key old new C = Ok C' ∧ change_key new old C' = Ok C.
Proof.
  intros HC Hne Hnew Hold.
  destruct (change_key_back old new C) as (C' & HC' & _ & Hback); [done..|].
  by exists C'.
Qed.

Lemma change_key_round_trip_witness :
  ∃ C', change_key "color" "c" ex_grid = Ok C' ∧ change_key "c" "color" C' = Ok ex_grid.
Proof. apply (change_key_round_trip "color" "c" ex_grid); compute_done. Defined.

(** ** What every reachable Cycler looks like *)

(** A Cycler a client can obtain has at least one key; if it has more
    than one it yields at least one record; and the children of a
    composite are never empty.  So the only empty Cyclers are single-key
    base Cyclers. *)
Theorem reachable_shape `{IterOrder} C :
  reachable C →
  keys C ≠ ∅ ∧
  (1 < size (keys C) → __len__ C ≠ 0) ∧
  (__len__ C = 0 → ∃ k, C = Base {[ k ]} []).
Proof.
  intros HC%reachable_wf. split_and!.
  - intros Hk. apply (wf_keys_size C HC). by rewrite Hk, size_empty.
  - intros Hsz Hlen%iter_nil_len. rewrite (wf_empty_size C HC Hlen) in Hsz. lia.
  - intros Hlen%iter_nil_len. destruct (wf_empty C HC Hlen) as [ks ->].
    destruct HC as [Hsz _]. apply size_1_elem_of in Hsz as [k Hk].
    exists k. f_equal. by apply leibniz_equiv.
Qed.

Lemma reachable_shape_witness :
  keys ex_empty_a ≠ ∅ ∧
  (1 < size (keys ex_empty_a) → __len__ ex_empty_a ≠ 0) ∧
  (__len__ ex_empty_a = 0 → ∃ k, ex_empty_a = Base {[ k ]} []).
Proof.
  apply (reachable_shape ex_empty_a).
  by apply (reach_cycler "a" (Values [])).
Defined.

(** ** Transposition, again *)

Lemma columns_getitem_missing (g : string → list value) (ks : list string) k :
  k ∉ ks → columns_getitem ((λ k', (k', g k')) <$> ks) k = Raise (KeyError k).
Proof.
  unfold columns_getitem. induction ks as [|k0 ks IH]; [done|].
  intros [Hk0 Hk]%not_elem_of_cons. csimpl.
  rewrite decide_False by (simpl; congruence). specialize (IH Hk).
  by destruct (list_find _ _) as [[? [? ?]]|].
Qed.

Lemma fmap_fst_pair {B} (g : string → B) (ks : list string) :
  ((λ k, (k, g k)) <$> ks).*1 = ks.
Proof. induction ks as [|k ks IH]; csimpl; [done|]. by f_equal. Qed.

Lemma by_key_column `{IterOrder} C k :
  wf C → k ∈ keys C →
  ∃ cols, by_key C = Ok cols ∧
          columns_getitem cols k = Ok (column k (__iter__ C)).
Proof.
  intros Hwf Hk. eexists. split; [by apply by_key_spec|].
  apply (columns_getitem_fmap (λ k, column k (__iter__ C))).
  by apply elem_of_set_order.
Qed.

(** [by_key] transposes: on a well-formed Cycler it returns a dict whose
    keys are exactly the Cycler's keys; the list under a key has one entry
    per record, and its [i]-th entry is the value the [i]-th record holds
    under that key.  Looking up any other key in it is a [KeyError]. *)
Theorem by_key_transposes `{IterOrder} C :
  wf C →
  ∃ cols, by_key C = Ok cols ∧
          cols.*1 ≡ₚ elements (keys C) ∧
          (∀ k, k ∈ keys C →
             ∃ col, columns_getitem cols k = Ok col ∧
                    length col = __len__ C ∧
                    ∀ i r, __iter__ C !! i = Some r →
                           ∃ v, r !! k = Some v ∧ col !! i = Some v) ∧
          (∀ k, k ∉ keys C → columns_getitem cols k = Raise (KeyError k)).
Proof.
  intros HC. eexists. split; [by apply by_key_spec|]. split_and!.
  - rewrite fmap_fst_pair. apply set_order_perm.
  - intros k Hk. exists (column k (__iter__ C)). split_and!.
    + apply (columns_getitem_fmap (λ k, column k (__iter__ C))).
      by apply elem_of_set_order.
    + unfold column. by rewrite length_fmap, len_iter.
    + intros i r Hr. pose proof (wf_dom C HC) as Hdom.
      rewrite Forall_forall in Hdom.
      assert (k ∈ dom r) as [v Hv]%elem_of_dom.
      { rewrite (Hdom r); [done|]. by eapply list_elem_of_lookup_2. }
      exists v. split; [done|]. unfold column.
      rewrite list_lookup_fmap, Hr. simpl.
      by rewrite (lookup_total_correct _ _ _ Hv).
  - intros k Hk. apply (columns_getitem_missing (λ k, column k (__iter__ C))).
    by rewrite elem_of_set_order.
Qed.

Lemma by_key_transposes_witness :
  ∃ cols, by_key ex_grid = Ok cols ∧
          cols.*1 ≡ₚ elements (keys ex_grid) ∧
          (∀ k, k ∈ keys ex_grid →
             ∃ col, columns_getitem cols k = Ok col ∧
                    length col = __len__ ex_grid ∧
                    ∀ i r, __iter__ ex_grid !! i = Some r →
                           ∃ v, r !! k = Some v ∧ col !! i = Some v) ∧
          (∀ k, k ∉ keys ex_grid → columns_getitem cols k = Raise (KeyError k)).
Proof. apply (by_key_transposes ex_grid). compute_done. Defined.

(** ** Keyword construction *)

Lemma fmap_lookup_total_seq (vs : list value) :
  (λ i, vs !!! i) <$> seq 0 (length vs) = vs.
Proof.
  apply list_eq. intros i. rewrite list_lookup_fmap.
  destruct (decide (i < length vs)) as [Hi|Hi].
  - rewrite lookup_seq_lt by done. simpl.
    by rewrite (list_lookup_lookup_total_lt vs i).
  - rewrite lookup_seq_ge, lookup_ge_None_2 by lia. done.
Qed.

Lemma rows_dom kw n :
  Forall (λ d : record, dom d = list_to_set kw.*1) (rows kw n).
Proof.
  apply Forall_fmap, Forall_forall. intros i _. simpl.
  rewrite dom_list_to_map_L. f_equal. by rewrite <-list_fmap_compose.
Qed.

Lemma column_rows kw k vs :
  NoDup kw.*1 → (k, vs) ∈ kw → column k (rows kw (length vs)) = vs.
Proof.
  intros Hnd Hin. unfold column, rows. rewrite <-list_fmap_compose.
  rewrite <-(fmap_lookup_total_seq vs) at 2. apply list_fmap_ext.
  intros _ i _. simpl. apply lookup_total_correct, elem_of_list_to_map_1.
  - by rewrite <-list_fmap_compose.
  - apply list_elem_of_fmap. by exists (k, vs).
Qed.

(** [cycler(k1=v1, k2=v2, ...)] round trip: for distinct labels and
    value lists of one length [n] (non-zero, unless there is a single
    label), the call succeeds; the Cycler has length [n] and the labels
    as keys, and [by_key] gives back each list under its label. *)
Theorem kwargs_round_trip `{IterOrder} (kw : list (string * list value)) n :
  NoDup kw.*1 → kw ≠ [] →
  (∀ k vs, (k, vs) ∈ kw → length vs = n) →
  n ≠ 0 ∨ length kw = 1 →
  ∃ R cols, cycler_kwargs (prod_map id Values <$> kw) = Ok R ∧
            __len__ R = n ∧
            keys R = list_to_set kw.*1 ∧
            by_key R = Ok cols ∧
            ∀ k vs, (k, vs) ∈ kw → columns_getitem cols k = Ok vs.
Proof.
  intros Hnd Hne Hlen Hn.
  destruct (rebuild kw.*1 (rows kw n)) as (R & HR & HwR & HkR & HiR).
  - done.
  - by destruct kw.
  - destruct Hn as [Hn|Hn]; [right|left; by rewrite length_fmap].
    unfold rows. by destruct n.
  - apply rows_dom.
  - assert (∀ k vs, (k, vs) ∈ kw → column k (__iter__ R) = vs) as Hcol.
    { intros k vs Hin. rewrite HiR, <-(Hlen k vs Hin). by apply column_rows. }
    exists R. eexists. split_and!.
    + unfold cycler_kwargs. destruct kw as [|kv kw']; [done|].
      remember (kv :: kw') as kw0. destruct (prod_map id Values <$> kw0) eqn:Hmap.
      { subst kw0. done. }
      rewrite <-Hmap, <-HR, <-!list_fmap_compose. f_equal.
      apply Forall_fmap_ext, Forall_forall. intros [k vs] Hin. simpl.
      unfold leaf. f_equal. f_equal.
      rewrite <-(Hlen k vs Hin). symmetry. by apply column_rows.
    + rewrite len_iter, HiR. unfold rows. by rewrite length_fmap, length_seq.
    + done.
    + by apply by_key_spec.
    + intros k vs Hin. rewrite <-(Hcol k vs Hin).
      apply (columns_getitem_fmap (λ k, column k (__iter__ R))).
      rewrite elem_of_set_order, HkR, elem_of_list_to_set.
      apply list_elem_of_fmap. by exists (k, vs).
Qed.

Lemma kwargs_round_trip_witness :
  ∃ R cols,
    cycler_kwargs (prod_map id Values <$>
                   [("color", [VStr "r"; VStr "g"]); ("lw", [VInt 1; VInt 2])]) = Ok R ∧
    __len__ R = 2 ∧
    keys R = list_to_set [("color", [VStr "r"; VStr "g"]); ("lw", [VInt 1; VInt 2])].*1 ∧
    by_key R = Ok cols ∧
    ∀ k vs, (k, vs) ∈ [("color", [VStr "r"; VStr "g"]); ("lw", [VInt 1; VInt 2])] →
            columns_getitem cols k = Ok vs.
Proof.
  apply (kwargs_round_trip [("color", [VStr "r"; VStr "g"]); ("lw", [VInt 1; VInt 2])] 2).
  - compute_done.
  - done.
  - intros k vs Hin. apply elem_of_cons in Hin as [[= -> ->]|Hin]; [done|].
    apply elem_of_cons in Hin as [[= -> ->]|Hin]; [done|].
    by apply elem_of_nil in Hin.
  - left. lia.
Defined.

(** ** Rebuilt Cyclers use only [+] *)

Lemma add_sums a b c :
  wf a → wf b → only_sums a → only_sums b → __add__ a b = Ok c →
  wf c ∧ only_sums c.
Proof.
  intros Ha Hb Hsa Hsb Hc. split; [exact (add_wf a b c Ha Hb Hc)|].
  rewrite add_spec in Hc by done. case_decide; [done|].
  apply composed_Ok in Hc as (_ & _ & _ & ->). done.
Qed.

Lemma foldlM_add_sums (gen : list (result Cycler)) acc c :
  Forall (λ g, ∀ x, g = Ok x → wf x ∧ only_sums x) gen →
  wf acc → only_sums acc →
  foldlM (λ acc y, b ← y; __add__ acc b) acc gen = Ok c → only_sums c.
Proof.
  intros Hgen. revert acc. induction Hgen as [|g gen Hg _ IH]; intros acc Hw Hs; simpl.
  - by intros [= <-].
  - intros (acc' & (b & -> & Hadd)%bind_Ok_inv & Hfold)%bind_Ok_inv.
    destruct (Hg b eq_refl) as [Hwb Hsb].
    destruct (add_sums acc b acc' Hw Hwb Hs Hsb Hadd) as [Hw' Hs'].
    exact (IH acc' Hw' Hs' Hfold).
Qed.

Lemma reduce_leaves_sums {A} (f : A → result Cycler) (l : list A) c :
  (∀ y x, f y = Ok x → ∃ k vs, x = _from_iter k vs) →
  reduce __add__ (f <$> l) = Ok c → only_sums c.
Proof.
  intros Hf.
  assert (Forall (λ g, ∀ x, g = Ok x → wf x ∧ only_sums x) (f <$> l)) as Hall.
  { apply Forall_fmap, Forall_forall. intros y _ x Hx. simpl in Hx.
    destruct (Hf y x Hx) as (k & vs & ->). split; [apply wf_from_iter|done]. }
  destruct (f <$> l) as [|g gen]; [done|].
  apply Forall_cons_1 in Hall as [Hg Hgen]. simpl.
  intros (a & -> & Hfold)%bind_Ok_inv. destruct (Hg a eq_refl) as [Hw Hs].
  exact (foldlM_add_sums gen a c Hgen Hw Hs Hfold).
Qed.

(** The Cyclers rebuilt from columns are compositions using only sums,
    as the documentation of [simplify] promises of its result: whatever
    [simplify], multiplication by an integer, slicing and [concat]
    return has no product node, even when their argument has. *)
Theorem rebuilt_only_sums `{IterOrder} :
  (∀ C R, simplify C = Ok R → only_sums R) ∧
  (∀ C n R, __mul__ C (ByInt n) = Ok R → only_sums R) ∧
  (∀ C key R, __getitem__ C key = Ok R → only_sums R) ∧
  (∀ A B R, concat A B = Ok R → only_sums R).
Proof.
  split_and!.
  - intros C R. unfold simplify. intros (trans & _ & Hred)%bind_Ok_inv.
    revert Hred. apply reduce_leaves_sums. intros y x [= <-]. eauto.
  - intros C n R. unfold __mul__. intros (trans & _ & Hred)%bind_Ok_inv.
    revert Hred. apply reduce_leaves_sums.
    intros y x (v & _ & [= <-])%bind_Ok_inv. eauto.
  - intros C [s|i] R; [|done]. unfold __getitem__.
    intros (trans & _ & Hred)%bind_Ok_inv. revert Hred.
    apply reduce_leaves_sums. intros y x (v & _ & [= <-])%bind_Ok_inv. eauto.
  - intros A B R. unfold concat. case_decide; [done|].
    intros (l & _ & (r & _ & Hred)%bind_Ok_inv)%bind_Ok_inv. revert Hred.
    apply reduce_leaves_sums.
    intros y x (v & _ & (w & _ & [= <-])%bind_Ok_inv)%bind_Ok_inv. eauto.
Qed.

Lemma rebuilt_only_sums_witness :
  ¬ only_sums ex_grid ∧
  ∃ R, simplify ex_grid = Ok R ∧ only_sums R.
Proof.
  split; [compute_done|].
  assert (∃ R, simplify ex_grid = Ok R) as [R HR] by (eexists; compute_done).
  exists R. split; [done|]. exact (proj1 rebuilt_only_sums ex_grid R HR).
Defined.

(** ** Concatenation *)

(** [concat(A, B)] is the chain of [A] and [B]: with equal key sets it
    succeeds, keeps the key set, and iterates the records of [A] followed
    by the records of [B]. *)
Theorem concat_chains `{IterOrder} A B :
  wf A → wf B → keys A = keys B →
  ∃ R, concat A B = Ok R ∧ keys R = keys A ∧
       __iter__ R = __iter__ A ++ __iter__ B.
Proof.
  intros HA HB Hk. destruct (concat_spec A B HA HB Hk) as (R & HR & _ & HkR & HiR).
  by exists R.
Qed.

Lemma concat_chains_witness :
  ∃ R, concat ex_a12 ex_a3 = Ok R ∧ keys R = keys ex_a12 ∧
       __iter__ R = __iter__ ex_a12 ++ __iter__ ex_a3.
Proof. apply (concat_chains ex_a12 ex_a3); compute_done. Defined.

(** [concat] is associative up to [==]: for three Cyclers with the same
    key set, both groupings succeed and give equal Cyclers. *)
Theorem concat_assoc `{IterOrder} A B C :
  wf A → wf B → wf C → keys A = keys B → keys B = keys C →
  ∃ L R, (AB ← concat A B; concat AB C) = Ok L ∧
         (BC ← concat B C; concat A BC) = Ok R ∧
         __eq__ L R = true.
Proof.
  intros HA HB HC Hab Hbc.
  destruct (concat_spec A B HA HB Hab) as (AB & -> & HwAB & HkAB & HiAB).
  destruct (concat_spec B C HB HC Hbc) as (BC & -> & HwBC & HkBC & HiBC).
  rewrite !bind_Ok.
  destruct (concat_spec AB C HwAB HC) as (L & HL & _ & HkL & HiL); [congruence|].
  destruct (concat_spec A BC HA HwBC) as (R & HR & _ & HkR & HiR); [congruence|].
  exists L, R. split_and!; [done..|]. apply eq_of_iter; [congruence|].
  by rewrite HiL, HiR, HiAB, HiBC, (assoc_L (++)).
Qed.

Lemma concat_assoc_witness :
  ∃ L R, (AB ← concat ex_a12 ex_a3; concat AB ex_a12) = Ok L ∧
         (BC ← concat ex_a3 ex_a12; concat ex_a12 BC) = Ok R ∧
         __eq__ L R = true.
Proof. apply (concat_assoc ex_a12 ex_a3 ex_a12); compute_done. Defined.

(** ** Columns of a composite *)

Lemma lookup_total_union_l (a b : record) k :
  k ∈ dom a → (a ∪ b) !!! k = a !!! k.
Proof.
  intros [v Hv]%elem_of_dom. rewrite !lookup_total_alt.
  by rewrite (lookup_union_Some_l _ _ _ _ Hv), Hv.
Qed.

Lemma lookup_total_union_r (a b : record) k :
  k ∉ dom a → (a ∪ b) !!! k = b !!! k.
Proof.
  intros Hk%not_elem_of_dom. rewrite !lookup_total_alt.
  by rewrite lookup_union_r.
Qed.





Lemma column_product_l k (la lb : list record) K :
  Forall (λ d : record, dom d = K) la → k ∈ K →
  column k (la ≫= λ a, (λ b : record, a ∪ b) <$> lb) =
  column k la ≫= λ v, replicate (length lb) v.
Proof.
  intros Hla Hk. unfold column.
  induction Hla as [|a la Ha _ IH]; csimpl; [done|].
  rewrite fmap_app, IH. f_equal. rewrite <-list_fmap_compose.
  clear IH. induction lb as [|b lb IH]; csimpl; [done|].
  f_equal; [|done]. apply lookup_total_union_l. by rewrite Ha.
Qed.

Lemma column_product_r k (la lb : list record) K :
  Forall (λ d : record, dom d = K) la → k ∉ K →
  column k (la ≫= λ a, (λ b : record, a ∪ b) <$> lb) =
  list_mul (column k lb) (Z.of_nat (length la)).
Proof.
  intros Hla Hk. unfold column, list_mul. rewrite Nat2Z.id.
  induction Hla as [|a la Ha _ IH]; csimpl; [done|].
  rewrite fmap_app, IH. f_equal. rewrite <-list_fmap_compose.
  apply list_fmap_ext. intros _ b _. simpl.
  apply lookup_total_union_r. by rewrite Ha.
Qed.

(** The columns of [A * B]: under a key of [A], each value of [A]'s
    column repeated [len(B)] times in a row; under a key of [B], the whole
    of [B]'s column repeated [len(A)] times. *)
Theorem mul_columns `{IterOrder} A B :
  wf A → wf B → keys A ## keys B → __len__ A ≠ 0 → __len__ B ≠ 0 →
  ∃ R cR cA cB,
    __mul__ A (ByCycler B) = Ok R ∧
    by_key R = Ok cR ∧ by_key A = Ok cA ∧ by_key B = Ok cB ∧
    (∀ k, k ∈ keys A →
       ∃ col, columns_getitem cA k = Ok col ∧
              columns_getitem cR k = Ok (col ≫= λ v, replicate (__len__ B) v)) ∧
    (∀ k, k ∈ keys B →
       ∃ col, columns_getitem cB k = Ok col ∧
              columns_getitem cR k = Ok (list_mul col (Z.of_nat (__len__ A)))).
Proof.
  intros HA HB Hd HnA HnB. unfold __mul__.
  set (R := Comp (keys A ∪ keys B) A B Product).
  assert (wf R) as HR by (simpl; rewrite !iter_nil_len; done).
  exists R. do 3 eexists.
  rewrite init_comp_spec, composed_disjoint by done.
  split_and!; [done|by apply by_key_spec..| |].
  - intros k Hk. exists (column k (__iter__ A)). split.
    + apply (columns_getitem_fmap (λ k, column k (__iter__ A))).
      by apply elem_of_set_order.
    + rewrite (len_iter B).
      rewrite <-(column_product_l k (__iter__ A) (__iter__ B) (keys A));
        [|by apply wf_dom|done].
      rewrite <-(iter_product_union (keys A ∪ keys B)) by done.
      apply (columns_getitem_fmap (λ k, column k (__iter__ R))).
      apply elem_of_set_order. simpl. set_solver.
  - intros k Hk. exists (column k (__iter__ B)). split.
    + apply (columns_getitem_fmap (λ k, column k (__iter__ B))).
      by apply elem_of_set_order.
    + rewrite (len_iter A).
      rewrite <-(column_product_r k (__iter__ A) (__iter__ B) (keys A));
        [|by apply wf_dom|set_solver].
      rewrite <-(iter_product_union (keys A ∪ keys B)) by done.
      apply (columns_getitem_fmap (λ k, column k (__iter__ R))).
      apply elem_of_set_order. simpl. set_solver.
Qed.

Lemma mul_columns_witness :
  ∃ R cR cA cB,
    __mul__ ex_color (ByCycler ex_width) = Ok R ∧
    by_key R = Ok cR ∧ by_key ex_color = Ok cA ∧ by_key ex_width = Ok cB ∧
    (∀ k, k ∈ keys ex_color →
       ∃ col, columns_getitem cA k = Ok col ∧
              columns_getitem cR k = Ok (col ≫= λ v, replicate (__len__ ex_width) v)) ∧
    (∀ k, k ∈ keys ex_width →
       ∃ col, columns_getitem cB k = Ok col ∧
              columns_getitem cR k = Ok (list_mul col (Z.of_nat (__len__ ex_color)))).
Proof. apply (mul_columns ex_color ex_width); compute_done. Defined.

(** ** Slicing *)

Lemma omap_lookup_fmap {A B} (f : A → B) (l : list A) (idx : list Z) :
  omap (λ i : Z, (f <$> l) !! Z.to_nat i) idx =
  f <$> omap (λ i : Z, l !! Z.to_nat i) idx.
Proof.
  induction idx as [|i idx IH]; csimpl; [done|].
  rewrite list_lookup_fmap. destruct (l !! Z.to_nat i); csimpl; [|done].
  by f_equal.
Qed.

(** Slicing a list of images is taking the images of the slice. *)
Lemma list_getslice_fmap {A B} (f : A → B) s (l : list A) :
  list_getslice s (f <$> l) =
  fmap (M:=result) (fmap (M:=list) f) (list_getslice s l).
Proof.
  unfold list_getslice. rewrite length_fmap.
  destruct (slice_indices s _) as [idx|e]; simpl; [|done].
  by rewrite omap_lookup_fmap.
Qed.

Lemma list_getslice_Forall {A} (P : A → Prop) s (l sel : list A) :
  Forall P l → list_getslice s l = Ok sel → Forall P sel.
Proof.
  intros Hl. unfold list_getslice.
  destruct (slice_indices s _) as [idx|e]; simpl; [|done]. intros [= <-].
  induction idx as [|i idx IH]; csimpl; [done|].
  destruct (l !! Z.to_nat i) as [x|] eqn:Hx; csimpl; [|done].
  constructor; [|done]. rewrite Forall_forall in Hl. apply Hl.
  by eapply list_elem_of_lookup_2.
Qed.

Lemma getitem_slice_spec `{IterOrder} C s sel :
  wf C → list_getslice s (__iter__ C) = Ok sel →
  size (keys C) = 1 ∨ sel ≠ [] →
  ∃ R, __getitem__ C (BySlice s) = Ok R ∧ keys R = keys C ∧ __iter__ R = sel.
Proof.
  intros HC Hsel Hne. unfold __getitem__. rewrite by_key_spec, bind_Ok by done.
  destruct (rebuild_keys (keys C) sel) as (R & HR & _ & HkR & HiR).
  - by apply wf_keys_size.
  - done.
  - eapply list_getslice_Forall; [by apply wf_dom|done].
  - exists R. split; [|done]. rewrite <-HR, <-list_fmap_compose. f_equal.
    apply list_fmap_ext. intros _ k _. simpl. unfold column at 1.
    by rewrite list_getslice_fmap, Hsel.
Qed.

(** [C[s]] slices the iteration: when slicing the record list of a
    well-formed [C] by [s] selects [sel], and [sel] is non-empty or [C]
    has a single key, [C[s]] succeeds, keeps the key set and yields
    exactly [sel]. *)
Theorem getitem_slices_records `{IterOrder} C s sel :
  wf C → list_getslice s (__iter__ C) = Ok sel →
  size (keys C) = 1 ∨ sel ≠ [] →
  ∃ R, __getitem__ C (BySlice s) = Ok R ∧ keys R = keys C ∧
       __iter__ R = sel ∧ __len__ R = length sel.
Proof.
  intros HC Hsel Hne.
  destruct (getitem_slice_spec C s sel HC Hsel Hne) as (R & HR & HkR & HiR).
  exists R. split_and!; [done..|]. by rewrite len_iter, HiR.
Qed.

Lemma getitem_slices_records_witness :
  ∃ R, __getitem__ ex_grid (BySlice (Slice (Some 1%Z) None (Some 2%Z))) = Ok R ∧
       keys R = keys ex_grid ∧
       __iter__ R = [ {[ "color" := VStr "r"; "lw" := VInt 2 ]};
                      {[ "color" := VStr "g"; "lw" := VInt 2 ]};
                      {[ "color" := VStr "b"; "lw" := VInt 2 ]} ] ∧
       __len__ R = 3.
Proof.
  apply (getitem_slices_records ex_grid); [compute_done|compute_done|].
  right. discriminate.
Defined.

(** What slicing refuses: an index that is not a slice, a slice with step
    0, and, on a Cycler with more than one key, a slice that selects
    nothing (the rebuilt empty columns cannot be added). *)
Theorem getitem_errors `{IterOrder} C :
  wf C →
  (∀ i, __getitem__ C (ByPosition i) = Raise OnlySlices) ∧
  (∀ a b, __getitem__ C (BySlice (Slice a b (Some 0%Z))) = Raise ZeroStep) ∧
  (∀ s, 1 < size (keys C) → list_getslice s (__iter__ C) = Ok [] →
        __getitem__ C (BySlice s) = Raise StopIteration).
Proof.
  intros HC. split_and!; [done| |].
  - intros a b. unfold __getitem__. rewrite by_key_spec, bind_Ok by done.
    pose proof (wf_keys_size C HC) as Hsz. rewrite <-set_order_length in Hsz.
    destruct (set_order (keys C)) as [|k ks]; [done|]. done.
  - intros s Hsz Hsel. unfold __getitem__. rewrite by_key_spec, bind_Ok by done.
    rewrite <-set_order_length in Hsz.
    destruct (set_order (keys C)) as [|k1 [|k2 ks]]; [simpl in Hsz; lia..|].
    csimpl. unfold column. rewrite !list_getslice_fmap, Hsel. done.
Qed.

Lemma getitem_errors_witness :
  (∀ i, __getitem__ ex_grid (ByPosition i) = Raise OnlySlices) ∧
  (∀ a b, __getitem__ ex_grid (BySlice (Slice a b (Some 0%Z))) = Raise ZeroStep) ∧
  (∀ s, 1 < size (keys ex_grid) → list_getslice s (__iter__ ex_grid) = Ok [] →
        __getitem__ ex_grid (BySlice s) = Raise StopIteration).
Proof. apply (getitem_errors ex_grid). compute_done. Defined.

Lemma omap_lookup_seq {A} (l : list A) s t n :
  s + t + n ≤ length l →
  omap (λ j, l !! (s + j)) (seq t n) = take n (drop (s + t) l).
Proof.
  revert t. induction n as [|n IH]; intros t Hs; csimpl; [by rewrite take_0|].
  destruct (lookup_lt_is_Some_2 l (s + t)) as [x Hx]; [lia|].
  rewrite Hx, (drop_S l x (s + t) Hx). csimpl. f_equal.
  rewrite IH by lia. by replace (s + S t) with (S (s + t)) by lia.
Qed.

Lemma omap_lookup_of_nat {A} (l : list A) (g : nat → nat) (js : list nat) :
  omap (λ i : Z, l !! Z.to_nat i) ((λ j, Z.of_nat (g j)) <$> js) =
  omap (λ j, l !! g j) js.
Proof.
  induction js as [|j js IH]; csimpl; [done|].
  by rewrite Nat2Z.id, IH.
Qed.

Lemma range_forward (s e : nat) :
  range (Z.of_nat s) (Z.of_nat e) 1 = (λ j, Z.of_nat (s + j)) <$> seq 0 (e - s).
Proof.
  unfold range. rewrite decide_True by lia.
  case_decide.
  - replace (Z.to_nat ((Z.of_nat e - Z.of_nat s - 1) / 1 + 1)) with (e - s)
      by (rewrite Z.div_1_r; lia).
    apply list_fmap_ext. intros _ j _. lia.
  - by replace (e - s) with 0 by lia.
Qed.

Lemma range_backward (n : nat) :
  range (Z.of_nat n - 1) (-1) (-1) = (λ j, Z.of_nat (n - S j)) <$> seq 0 n.
Proof.
  unfold range. rewrite decide_False by lia.
  case_decide.
  - replace (Z.to_nat ((Z.of_nat n - 1 - -1 - 1) / - -1 + 1)) with n
      by (simpl; rewrite Z.div_1_r; lia).
    apply Forall_fmap_ext, Forall_forall. intros j Hj%elem_of_seq. lia.
  - by replace n with 0 by lia.
Qed.

(** [l[a:b]] for [0 ≤ a] and [0 ≤ b]: bounds beyond the end are clamped,
    never an error. *)
Lemma list_getslice_bounds {A} (l : list A) (a b : nat) :
  list_getslice (Slice (Some (Z.of_nat a)) (Some (Z.of_nat b)) None) l =
  Ok (drop a (take b l)).
Proof.
  unfold list_getslice, slice_indices. simpl.
  rewrite !decide_False by lia.
  rewrite <-!Nat2Z.inj_min, range_forward.
  rewrite (omap_lookup_of_nat l (λ j, a `min` length l + j)).
  rewrite omap_lookup_seq, Nat.add_0_r by lia.
  f_equal. apply list_eq. intros i.
  rewrite lookup_drop.
  destruct (decide (i < b `min` length l - a `min` length l)) as [Hi|Hi].
  - rewrite lookup_take_lt, lookup_drop, lookup_take_lt by lia.
    f_equal. lia.
  - rewrite lookup_take_ge by lia.
    destruct (decide (a + i < b)) as [Hb|Hb].
    + rewrite lookup_take_lt by lia. symmetry. apply lookup_ge_None_2. lia.
    + symmetry. apply lookup_take_ge. lia.
Qed.

(** [l[:]] *)
Lemma list_getslice_full {A} (l : list A) :
  list_getslice (Slice None None None) l = Ok l.
Proof.
  unfold list_getslice, slice_indices. simpl.
  change (range 0 (Z.of_nat (length l)) 1)
    with (range (Z.of_nat 0) (Z.of_nat (length l)) 1).
  rewrite (range_forward 0 (length l)).
  rewrite (omap_lookup_of_nat l (λ j, 0 + j)).
  rewrite Nat.sub_0_r, omap_lookup_seq by lia.
  by rewrite drop_0, firstn_all.
Qed.

(** [l[::-1]] *)
Lemma list_getslice_reverse {A} (l : list A) :
  list_getslice (Slice None None (Some (-1)%Z)) l = Ok (reverse l).
Proof.
  unfold list_getslice, slice_indices. simpl.
  rewrite range_backward.
  rewrite (omap_lookup_of_nat l (λ j, length l - S j)).
  f_equal.
  assert (omap (λ j, l !! (length l - S j)) (seq 0 (length l)) =
          omap (λ j, reverse l !! j) (seq 0 (length l))) as ->.
  { apply list_omap_ext, Forall2_same_length_lookup_2; [done|].
    intros i x y Hx Hy. rewrite Hx in Hy. injection Hy as <-.
    apply lookup_seq in Hx as [-> Hi]. simpl.
    by rewrite reverse_lookup. }
  rewrite <-(length_reverse l).
  rewrite (omap_lookup_seq (reverse l) 0 0) by lia.
  by rewrite drop_0, firstn_all.
Qed.

(** [C[:]] is equal to [C], for every well-formed [C]. *)
Theorem getitem_full_slice `{IterOrder} C :
  wf C →
  ∃ R, __getitem__ C (BySlice (Slice None None None)) = Ok R ∧ __eq__ R C = true.
Proof.
  intros HC.
  destruct (getitem_slice_spec C (Slice None None None) (__iter__ C))
    as (R & HR & HkR & HiR); [done|apply list_getslice_full| |].
  - destruct (decide (__iter__ C = [])) as [Hnil|?]; [|by right].
    left. by apply wf_empty_size.
  - exists R. split; [done|]. by apply eq_of_iter.
Qed.

Lemma getitem_full_slice_witness :
  ∃ R, __getitem__ ex_grid (BySlice (Slice None None None)) = Ok R ∧
       __eq__ R ex_grid = true.
Proof. apply (getitem_full_slice ex_grid). compute_done. Defined.

(** [C[::-1]] yields the records of [C] in reverse order, and reversing
    twice gives a Cycler equal to [C]. *)
Theorem getitem_reverse `{IterOrder} C :
  wf C →
  ∃ R RR, __getitem__ C (BySlice (Slice None None (Some (-1)%Z))) = Ok R ∧
          __iter__ R = reverse (__iter__ C) ∧
          __getitem__ R (BySlice (Slice None None (Some (-1)%Z))) = Ok RR ∧
          __eq__ RR C = true.
Proof.
  intros HC.
  assert (∀ c, wf c →
    ∃ R, __getitem__ c (BySlice (Slice None None (Some (-1)%Z))) = Ok R ∧
         wf R ∧ keys R = keys c ∧ __iter__ R = reverse (__iter__ c)) as Hrev.
  { intros c Hc.
    destruct (getitem_slice_spec c (Slice None None (Some (-1)%Z))
                (reverse (__iter__ c))) as (R & HR & HkR & HiR);
      [done|apply list_getslice_reverse| |].
    - destruct (decide (__iter__ c = [])) as [Hnil|Hne];
        [left; by apply wf_empty_size|right].
      intros Hnil%(f_equal length). rewrite length_reverse in Hnil.
      by destruct (__iter__ c).
    - exists R. split_and!; [done| |done..]. by eapply getitem_wf. }
  destruct (Hrev C HC) as (R & HR & HwR & HkR & HiR).
  destruct (Hrev R HwR) as (RR & HRR & _ & HkRR & HiRR).
  exists R, RR. split_and!; [done..|]. apply eq_of_iter; [congruence|].
  by rewrite HiRR, HiR, reverse_involutive.
Qed.

Lemma getitem_reverse_witness :
  ∃ R RR, __getitem__ ex_grid (BySlice (Slice None None (Some (-1)%Z))) = Ok R ∧
          __iter__ R = reverse (__iter__ ex_grid) ∧
          __getitem__ R (BySlice (Slice None None (Some (-1)%Z))) = Ok RR ∧
          __eq__ RR ex_grid = true.
Proof. apply (getitem_reverse ex_grid). compute_done. Defined.

(** [C[a:b]] for non-negative bounds: the records from position [a] up
    to position [b], the bounds being clamped to the length; it succeeds
    whenever that range is not empty or [C] has a single key. *)
Theorem getitem_bounds `{IterOrder} C (a b : nat) :
  wf C →
  size (keys C) = 1 ∨ (a < b ∧ a < __len__ C) →
  ∃ R, __getitem__ C (BySlice (Slice (Some (Z.of_nat a)) (Some (Z.of_nat b)) None)) = Ok R ∧
       __iter__ R = drop a (take b (__iter__ C)) ∧
       __len__ R = b `min` __len__ C - a.
Proof.
  intros HC Hne.
  destruct (getitem_slice_spec C
              (Slice (Some (Z.of_nat a)) (Some (Z.of_nat b)) None)
              (drop a (take b (__iter__ C)))) as (R & HR & HkR & HiR);
    [done|apply list_getslice_bounds| |].
  - destruct Hne as [?|[Hab Ha]]; [by left|right].
    intros Hnil%(f_equal length). rewrite len_iter in Ha.
    rewrite length_drop, length_take in Hnil. simpl in Hnil. lia.
  - exists R. split_and!; [done..|].
    rewrite !len_iter, HiR, length_drop, length_take. done.
Qed.

Lemma getitem_bounds_witness :
  ∃ R, __getitem__ ex_grid (BySlice (Slice (Some (Z.of_nat 4)) (Some (Z.of_nat 100)) None)) = Ok R ∧
       __iter__ R = drop 4 (take 100 (__iter__ ex_grid)) ∧
       __len__ R = 100 `min` __len__ ex_grid - 4.
Proof.
  apply (getitem_bounds ex_grid 4 100); [compute_done|].
  right. split; [lia|]. compute_done.
Defined.

(** ** Multiplication by an integer *)

Lemma list_mul_add {A} (v : list A) (m n : Z) :
  (0 ≤ m)%Z → (0 ≤ n)%Z → list_mul v (m + n) = list_mul v m ++ list_mul v n.
Proof.
  intros Hm Hn. unfold list_mul.
  by rewrite Z2Nat.inj_add, replicate_add, join_app by done.
Qed.

Lemma list_mul_mul {A} (v : list A) (m n : Z) :
  (0 ≤ m)%Z → (0 ≤ n)%Z → list_mul (list_mul v m) n = list_mul v (m * n).
Proof.
  intros Hm Hn. unfold list_mul. rewrite Z2Nat.inj_mul by done.
  induction (Z.to_nat n) as [|b IH]; csimpl.
  - by rewrite Nat.mul_0_r.
  - rewrite IH. replace (Z.to_nat m * S b) with (Z.to_nat m + Z.to_nat m * b) by lia.
    by rewrite replicate_add, join_app.
Qed.

(** Multiplying by an integer [n ≤ 0].  When [n] is an index
    ([n ≥ -2^63]), a Cycler with a single key becomes the empty Cycler
    on that key and a Cycler with more keys makes the call raise
    [StopIteration]; below [-2^63] the call raises [OverflowError]. *)
Theorem mul_int_nonpositive `{IterOrder} C (n : Z) :
  wf C → (n ≤ 0)%Z →
  ((- PY_SSIZE_T_MAX - 1 ≤ n)%Z → size (keys C) = 1 →
   ∃ R, __mul__ C (ByInt n) = Ok R ∧ keys R = keys C ∧ __len__ R = 0) ∧
  ((- PY_SSIZE_T_MAX - 1 ≤ n)%Z → size (keys C) ≠ 1 →
   __mul__ C (ByInt n) = Raise StopIteration) ∧
  ((n < - PY_SSIZE_T_MAX - 1)%Z → __mul__ C (ByInt n) = Raise OverflowError).
Proof.
  intros HC Hn.
  pose proof MAX_LIST_SIZE_pos. pose proof MAX_LIST_SIZE_le. split_and!.
  - intros Hmin Hsz.
    destruct (mul_int_spec C n HC) as (R & HR & _ & HkR & HiR); [lia|nia|by left|].
    exists R. split_and!; [done..|].
    rewrite len_iter, HiR, list_mul_length. by replace (Z.to_nat n) with 0 by lia.
  - intros Hmin Hsz. by apply mul_int_0_multi.
  - intros Hmin. apply mul_int_overflow; [done|by left].
Qed.

Lemma mul_int_nonpositive_witness :
  (∃ R, __mul__ ex_color (ByInt (-2)) = Ok R ∧ keys R = keys ex_color ∧ __len__ R = 0) ∧
  __mul__ ex_grid (ByInt (-2)) = Raise StopIteration ∧
  __mul__ ex_color (ByInt (- 2 ^ 63 - 1)) = Raise OverflowError.
Proof.
  assert (wf ex_color) as Hc by compute_done.
  assert (wf ex_grid) as Hg by compute_done.
  destruct (mul_int_nonpositive ex_color (-2) Hc) as (H1 & _ & _); [lia|].
  destruct (mul_int_nonpositive ex_grid (-2) Hg) as (_ & H2 & _); [lia|].
  destruct (mul_int_nonpositive ex_color (- 2 ^ 63 - 1) Hc) as (_ & _ & H3); [lia|].
  split_and!; [apply H1|apply H2|apply H3]; compute_done.
Defined.

(** Repetition adds up: [C * (m + n)] is equal to
    [concat(C * m, C * n)], for [m, n ≥ 1] (for [m, n ≥ 0] when [C] has
    a single key), as long as [m + n] is an index and [C * (m + n)] is
    no longer than a list can be. *)
Theorem mul_int_add `{IterOrder} C (m n : Z) :
  wf C → (0 ≤ m)%Z → (0 ≤ n)%Z →
  (m + n ≤ PY_SSIZE_T_MAX)%Z →
  (Z.of_nat (__len__ C) * (m + n) ≤ MAX_LIST_SIZE)%Z →
  size (keys C) = 1 ∨ ((0 < m)%Z ∧ (0 < n)%Z) →
  ∃ S Cm Cn R,
    __mul__ C (ByInt (m + n)) = Ok S ∧
    __mul__ C (ByInt m) = Ok Cm ∧ __mul__ C (ByInt n) = Ok Cn ∧
    concat Cm Cn = Ok R ∧ __eq__ S R = true.
Proof.
  intros HC Hm Hn Hmax Hfits Hcase. pose proof MAX_LIST_SIZE_pos.
  destruct (mul_int_spec C (m + n) HC) as (S & HS & _ & HkS & HiS);
    [lia|done|intuition lia|].
  destruct (mul_int_spec C m HC) as (Cm & HCm & HwCm & HkCm & HiCm);
    [lia|nia|intuition lia|].
  destruct (mul_int_spec C n HC) as (Cn & HCn & HwCn & HkCn & HiCn);
    [lia|nia|intuition lia|].
  destruct (concat_spec Cm Cn HwCm HwCn) as (R & HR & _ & HkR & HiR); [congruence|].
  exists S, Cm, Cn, R. split_and!; [done..|]. apply eq_of_iter; [congruence|].
  by rewrite HiS, HiR, HiCm, HiCn, list_mul_add.
Qed.

Lemma mul_int_add_witness :
  ∃ S Cm Cn R,
    __mul__ ex_grid (ByInt (1 + 2)) = Ok S ∧
    __mul__ ex_grid (ByInt 1) = Ok Cm ∧ __mul__ ex_grid (ByInt 2) = Ok Cn ∧
    concat Cm Cn = Ok R ∧ __eq__ S R = true.
Proof.
  apply (mul_int_add ex_grid 1 2);
    [compute_done|lia|lia|compute_done|compute_done|right; lia].
Defined.

(** Repetition composes: [(C * m) * n] is equal to [C * (m * n)], for
    [m, n ≥ 1] (for [m, n ≥ 0] when [C] has a single key), as long as
    [m], [n] and [m * n] are indices and [C * m] and [C * (m * n)] are
    no longer than a list can be. *)
Theorem mul_int_mul `{IterOrder} C (m n : Z) :
  wf C → (0 ≤ m ≤ PY_SSIZE_T_MAX)%Z → (0 ≤ n ≤ PY_SSIZE_T_MAX)%Z →
  (m * n ≤ PY_SSIZE_T_MAX)%Z →
  (Z.of_nat (__len__ C) * m ≤ MAX_LIST_SIZE)%Z →
  (Z.of_nat (__len__ C) * (m * n) ≤ MAX_LIST_SIZE)%Z →
  size (keys C) = 1 ∨ ((0 < m)%Z ∧ (0 < n)%Z) →
  ∃ L R, (Cm ← __mul__ C (ByInt m); __mul__ Cm (ByInt n)) = Ok L ∧
         __mul__ C (ByInt (m * n)) = Ok R ∧ __eq__ L R = true.
Proof.
  intros HC Hm Hn Hmax Hfm Hfmn Hcase.
  destruct (mul_int_spec C m HC) as (Cm & -> & HwCm & HkCm & HiCm);
    [lia|done|intuition lia|].
  rewrite bind_Ok.
  destruct (mul_int_spec Cm n HwCm) as (L & HL & _ & HkL & HiL);
    [lia| |rewrite HkCm; intuition lia|].
  { rewrite (len_iter Cm), HiCm, list_mul_length, <-len_iter. nia. }
  destruct (mul_int_spec C (m * n) HC) as (R & HR & _ & HkR & HiR);
    [nia|done|intuition nia|].
  exists L, R. split_and!; [done..|]. apply eq_of_iter; [congruence|].
  by rewrite HiL, HiCm, HiR, list_mul_mul by lia.
Qed.

Lemma mul_int_mul_witness :
  ∃ L R, (Cm ← __mul__ ex_grid (ByInt 2); __mul__ Cm (ByInt 3)) = Ok L ∧
         __mul__ ex_grid (ByInt (2 * 3)) = Ok R ∧ __eq__ L R = true.
Proof.
  apply (mul_int_mul ex_grid 2 3); [compute_done..|right; lia].
Defined.

(** ** Cycling *)

Lemma join_replicate_comm {A} (s : list A) n :
  mjoin (replicate n s) ++ s = s ++ mjoin (replicate n s).
Proof.
  induction n as [|n IH]; csimpl; [by rewrite (right_id_L [] (++))|].
  by rewrite <-(assoc_L (++)), IH.
Qed.

Lemma length_join_replicate {A} (s : list A) n :
  length (mjoin (replicate n s)) = n * length s.
Proof.
  induction n as [|n IH]; csimpl; [done|]. by rewrite length_app, IH.
Qed.

Lemma cycle_take_empty {A} n (pending : list A) :
  cycle_take n pending [] = take n pending.
Proof.
  revert pending. induction n as [|n IH]; intros [|x p]; simpl; try done.
  by rewrite IH.
Qed.

(** The first [n] items of a cycle over a non-empty [saved]: what is
    left of the first pass, then [saved] again and again. *)
Lemma cycle_take_spec {A} n (pending saved : list A) :
  saved ≠ [] →
  cycle_take n pending saved = take n (pending ++ mjoin (replicate n saved)).
Proof.
  intros Hne. revert pending. induction n as [|n IH]; intros pending; [done|].
  assert (n ≤ length (mjoin (replicate n saved))) as Hlen.
  { rewrite length_join_replicate. destruct saved; [done|]. simpl. nia. }
  destruct pending as [|x p]; simpl.
  - destruct saved as [|x p]; [done|]. simpl. by rewrite IH.
  - rewrite IH. f_equal.
    change (replicate n saved ≫= id) with (mjoin (replicate n saved)).
    rewrite <-join_replicate_comm, !(assoc_L (++)).
    rewrite (take_app_le (p ++ mjoin (replicate n saved))); [done|].
    rewrite length_app. lia.
Qed.

Lemma lookup_join_replicate {A} (s : list A) n i :
  i < n * length s → mjoin (replicate n s) !! i = s !! (i mod length s).
Proof.
  revert i. induction n as [|n IH]; intros i Hi; [lia|]. csimpl.
  destruct (decide (i < length s)) as [Hlt|Hge].
  - by rewrite lookup_app_l, Nat.mod_small.
  - rewrite lookup_app_r, IH by lia.
    replace i with ((i - length s) + 1 * length s) at 2 by lia.
    by rewrite Nat.Div0.mod_add.
Qed.

(** [C()] cycles: over an empty Cycler it yields nothing; over a
    non-empty one it never stops, and its [i]-th record (from 0) is the
    record of [C] at position [i mod len(C)]. *)
Theorem call_cycles C n :
  (__len__ C = 0 → __call__ C n = []) ∧
  (__len__ C ≠ 0 →
   length (__call__ C n) = n ∧
   ∀ i, i < n → __call__ C n !! i = __iter__ C !! (i mod __len__ C)).
Proof.
  rewrite len_iter. unfold __call__. split.
  - intros Hlen. destruct (__iter__ C); [|done]. by rewrite cycle_take_empty, take_nil.
  - intros Hlen.
    assert (__iter__ C ≠ []) as Hne by (by destruct (__iter__ C)).
    rewrite cycle_take_spec by done.
    assert (n ≤ length (mjoin (replicate (S n) (__iter__ C)))) as Hn.
    { rewrite length_join_replicate. destruct (__iter__ C); [done|]. simpl. nia. }
    change (__iter__ C ++ mjoin (replicate n (__iter__ C)))
      with (mjoin (replicate (S n) (__iter__ C))).
    split; [by rewrite length_take_le|].
    intros i Hi. rewrite lookup_take_lt by done.
    apply lookup_join_replicate. rewrite length_join_replicate in Hn. lia.
Qed.

Lemma call_cycles_witness :
  length (__call__ ex_color 7) = 7 ∧
  ∀ i, i < 7 → __call__ ex_color 7 !! i = __iter__ ex_color !! (i mod __len__ ex_color).
Proof. apply (call_cycles ex_color 7). compute_done. Defined.

(** [k ≥ 1] rounds of [C()] are the iteration of [C * k], as long as
    [k] is an index and the [k] rounds are no longer than a list can
    be. *)
Theorem call_rounds `{IterOrder} C (k : nat) :
  wf C → 0 < k → (Z.of_nat k ≤ PY_SSIZE_T_MAX)%Z →
  (Z.of_nat (__len__ C) * Z.of_nat k ≤ MAX_LIST_SIZE)%Z →
  ∃ R, __mul__ C (ByInt (Z.of_nat k)) = Ok R ∧
       __call__ C (k * __len__ C) = __iter__ R.
Proof.
  intros HC Hk Hmax Hfits. pose proof MAX_LIST_SIZE_pos. pose proof MAX_LIST_SIZE_le.
  destruct (mul_int_spec C (Z.of_nat k) HC) as (R & HR & _ & _ & HiR);
    [lia|done|right; lia|].
  exists R. split; [done|]. rewrite HiR, len_iter. unfold __call__, list_mul.
  rewrite Nat2Z.id.
  destruct (decide (__iter__ C = [])) as [Hnil|Hne].
  - rewrite Hnil, cycle_take_empty, take_nil. symmetry. apply join_nil_2.
    by apply Forall_replicate.
  - rewrite cycle_take_spec by done.
    set (N := k * length (__iter__ C)).
    assert (k ≤ S N) as HkN.
    { unfold N. destruct (__iter__ C); [done|]. simpl. nia. }
    change (__iter__ C ++ mjoin (replicate N (__iter__ C)))
      with (mjoin (replicate (S N) (__iter__ C))).
    replace (S N) with (k + (S N - k)) by lia.
    rewrite replicate_add, join_app.
    apply take_app_length'. unfold N. by rewrite length_join_replicate.
Qed.

Lemma call_rounds_witness :
  ∃ R, __mul__ ex_grid (ByInt (Z.of_nat 2)) = Ok R ∧
       __call__ ex_grid (2 * __len__ ex_grid) = __iter__ R.
Proof. apply (call_rounds ex_grid 2); [compute_done|lia|compute_done..]. Defined.

(** ** [simplify] as a canonical form *)

Lemma simplify_of_iter (O1 O2 : IterOrder) A B :
  wf A → wf B →
  @set_order O1 (keys A) = @set_order O2 (keys B) → __iter__ A = __iter__ B →
  @simplify O1 A = @simplify O2 B.
Proof.
  intros HA HB Hk Hi. unfold simplify. by rewrite !by_key_spec, Hk, Hi.
Qed.

Lemma eq_iff_iter A B :
  __eq__ A B = true ↔ keys A = keys B ∧ __iter__ A = __iter__ B.
Proof.
  split; [|by intros [??]; apply eq_of_iter].
  unfold __eq__. rewrite !len_iter.
  case_decide as Hlen; [done|]. case_decide as Hk; [done|].
  intros Hall. split; [|by apply forallb_zip_eq].
  apply set_eq. intros x.
  destruct (decide (x ∈ keys A)), (decide (x ∈ keys B)); set_solver.
Qed.

(** The result of [simplify] is built from the records and from the
    order in which the keys are walked, which the three calls below
    choose independently ([O1], [O2], [O3]).  Two well-formed Cyclers
    are [==] exactly when their simplified forms are [==]; when their
    keys are walked in the same order, exactly when their simplified
    forms are one and the same composition.  Simplifying a simplified
    Cycler gives a Cycler equal to it, and the very same composition
    when the keys are walked in the same order again. *)
Theorem simplify_canonical (O1 O2 O3 : IterOrder) A B :
  wf A → wf B →
  ∃ SA SB,
    @simplify O1 A = Ok SA ∧ @simplify O2 B = Ok SB ∧
    (__eq__ A B = true ↔ __eq__ SA SB = true) ∧
    (@set_order O1 (keys A) = @set_order O2 (keys B) →
     (__eq__ A B = true ↔ SA = SB)) ∧
    (∃ SS, @simplify O3 SA = Ok SS ∧ __eq__ SS SA = true ∧
           (@set_order O3 (keys SA) = @set_order O1 (keys A) → SS = SA)).
Proof.
  intros HA HB.
  destruct (@simplify_spec O1 A HA) as (SA & HSA & HwSA & HkSA & HiSA).
  destruct (@simplify_spec O2 B HB) as (SB & HSB & HwSB & HkSB & HiSB).
  destruct (@simplify_spec O3 SA HwSA) as (SS & HSS & HwSS & HkSS & HiSS).
  exists SA, SB. split_and!; [done..| | |].
  - rewrite !eq_iff_iter. rewrite HkSA, HkSB, HiSA, HiSB. done.
  - intros Hord. rewrite eq_iff_iter. split.
    + intros [Hk Hi].
      pose proof (simplify_of_iter O1 O2 A B HA HB Hord Hi) as Heq.
      rewrite HSA, HSB in Heq. by injection Heq.
    + intros <-. split; congruence.
  - exists SS. split_and!; [done|by apply eq_of_iter|].
    intros Hord.
    pose proof (simplify_of_iter O3 O1 SA A HwSA HA Hord HiSA) as Heq.
    rewrite HSS, HSA in Heq. by injection Heq.
Qed.

(** [color + linestyle] and [linestyle + color] are two compositions
    with the same records; walked in one order, their keys give one
    simplified form, which simplifies to itself. *)
Lemma simplify_canonical_witness :
  ex_styles ≠ Comp (keys ex_styles) ex_linestyle ex_color Zip ∧
  ∃ S, simplify ex_styles = Ok S ∧
       simplify (Comp (keys ex_styles) ex_linestyle ex_color Zip) = Ok S ∧
       simplify S = Ok S.
Proof.
  split; [done|].
  destruct (simplify_canonical elements_order elements_order elements_order
              ex_styles (Comp (keys ex_styles) ex_linestyle ex_color Zip))
    as (SA & SB & HSA & HSB & _ & Hsame & SS & HSS & _ & Hidem);
    [compute_done..|].
  exists SA. split_and!; [done| |].
  - rewrite HSB. f_equal. symmetry. apply Hsame; compute_done.
  - rewrite HSS. f_equal. apply Hidem. clear -HSA.
    assert (simplify ex_styles = Ok SA → keys SA = keys ex_styles) as Hk.
    { intros Hs. destruct (simplify_spec ex_styles) as (S & HS & _ & HkS & _);
        [compute_done|]. congruence. }
    by rewrite (Hk HSA).
Defined.

(** Walked in another order, the same keys give another composition of
    the same records. *)
Lemma simplify_order_matters :
  ∃ S S', @simplify elements_order ex_styles = Ok S ∧
          @simplify reverse_order ex_styles = Ok S' ∧
          S ≠ S' ∧ __eq__ S S' = true.
Proof.
  eexists _, _. split; [vm_compute; reflexivity|].
  split; [vm_compute; reflexivity|]. split; [|vm_compute; reflexivity].
  intros Heq. vm_compute in Heq. congruence.
Qed.

(** ** Products, concatenation and order *)

Lemma bind_cons_perm {A B} (h : A → B) (F : A → list B) (l : list A) :
  (l ≫= λ x, h x :: F x) ≡ₚ (h <$> l) ++ (l ≫= F).
Proof.
  induction l as [|x l IH]; csimpl; [done|].
  rewrite IH. f_equiv. rewrite !(assoc (++)). f_equiv.
  apply Permutation_app_comm.
Qed.

Lemma product_union_perm (la lb : list record) (ka kb : gset string) :
  Forall (λ r : record, dom r = ka) la → Forall (λ r : record, dom r = kb) lb →
  ka ## kb →
  (la ≫= λ a, (λ b : record, a ∪ b) <$> lb) ≡ₚ
  (lb ≫= λ b, (λ a : record, b ∪ a) <$> la).
Proof.
  intros Hla Hlb Hd. induction Hla as [|a la Ha _ IH]; csimpl.
  - induction lb as [|b lb IHb]; csimpl; [done|].
    apply Forall_cons_1 in Hlb as [_ Hlb]. by apply IHb.
  - rewrite IH. rewrite bind_cons_perm. f_equiv.
    assert ((λ b : record, a ∪ b) <$> lb = (λ x : record, x ∪ a) <$> lb) as ->; [|done].
    apply Forall_fmap_ext.
    eapply Forall_impl; [exact Hlb|]. intros b Hb. simpl in *.
    symmetry. by apply (union_records_comm a b ka kb).
Qed.

(** [*] is commutative up to the order of the records: for non-empty
    Cyclers with disjoint keys, [A * B] and [B * A] have the same keys
    and length and yield the same records, each as many times, in a
    different order. *)
Theorem mul_comm_perm `{IterOrder} A B :
  wf A → wf B → keys A ## keys B → __len__ A ≠ 0 → __len__ B ≠ 0 →
  ∃ R R', __mul__ A (ByCycler B) = Ok R ∧ __mul__ B (ByCycler A) = Ok R' ∧
          keys R = keys R' ∧ __len__ R = __len__ R' ∧
          __iter__ R ≡ₚ __iter__ R'.
Proof.
  intros HA HB Hd HnA HnB. unfold __mul__.
  exists (Comp (keys A ∪ keys B) A B Product), (Comp (keys B ∪ keys A) B A Product).
  rewrite !init_comp_spec, !composed_disjoint by done.
  split_and!; [done..|apply (comm_L (∪))|simpl; lia|].
  rewrite !iter_product_union by done.
  eapply product_union_perm; [by apply wf_dom..|done].
Qed.

Lemma mul_comm_perm_witness :
  ∃ R R', __mul__ ex_color (ByCycler ex_width) = Ok R ∧
          __mul__ ex_width (ByCycler ex_color) = Ok R' ∧
          keys R = keys R' ∧ __len__ R = __len__ R' ∧
          __iter__ R ≡ₚ __iter__ R'.
Proof. apply (mul_comm_perm ex_color ex_width); compute_done. Defined.

(** [*] distributes over [concat] on the left: for [A] and [B] with the
    same keys, disjoint from those of [C], and all three non-empty,
    [concat(A, B) * C] is equal to [concat(A * C, B * C)]. *)
Theorem mul_concat_distr `{IterOrder} A B C :
  wf A → wf B → wf C →
  keys A = keys B → keys A ## keys C →
  __len__ A ≠ 0 → __len__ B ≠ 0 → __len__ C ≠ 0 →
  ∃ L R, (AB ← concat A B; __mul__ AB (ByCycler C)) = Ok L ∧
         (AC ← __mul__ A (ByCycler C); BC ← __mul__ B (ByCycler C); concat AC BC) = Ok R ∧
         __eq__ L R = true.
Proof.
  intros HA HB HC Hk Hd HnA HnB HnC. unfold __mul__.
  destruct (concat_spec A B HA HB Hk) as (AB & -> & HwAB & HkAB & HiAB).
  rewrite bind_Ok.
  assert (__len__ AB ≠ 0) as HnAB.
  { rewrite len_iter, HiAB, length_app, <-!len_iter. lia. }
  set (AC := Comp (keys A ∪ keys C) A C Product).
  set (BC := Comp (keys B ∪ keys C) B C Product).
  assert (wf AC) as HwAC by (simpl; rewrite !iter_nil_len; done).
  assert (wf BC) as HwBC.
  { simpl. rewrite !iter_nil_len. split_and!; try done. by rewrite <-Hk. }
  rewrite (init_comp_spec A C), (init_comp_spec B C) by done.
  rewrite (composed_disjoint A C), (composed_disjoint B C) by (done || by rewrite <-Hk).
  fold AC BC. rewrite !bind_Ok.
  destruct (concat_spec AC BC HwAC HwBC) as (R & HR & _ & HkR & HiR);
    [simpl; by rewrite Hk|].
  exists (Comp (keys AB ∪ keys C) AB C Product), R.
  rewrite init_comp_spec, composed_disjoint by (done || by rewrite HkAB).
  split_and!; [done..|]. apply eq_of_iter; [simpl; by rewrite HkR, HkAB|].
  rewrite HiR. unfold AC, BC.
  rewrite !iter_product_union by (done || by rewrite <-?Hk, ?HkAB).
  by rewrite HiAB, bind_app.
Qed.

Lemma mul_concat_distr_witness :
  ∃ L R, (AB ← concat ex_a12 ex_a3; __mul__ AB (ByCycler ex_width)) = Ok L ∧
         (AC ← __mul__ ex_a12 (ByCycler ex_width);
          BC ← __mul__ ex_a3 (ByCycler ex_width); concat AC BC) = Ok R ∧
         __eq__ L R = true.
Proof. apply (mul_concat_distr ex_a12 ex_a3 ex_width); compute_done. Defined.
